(** * CipherDash: cipher nodes, polygon geometry, scoring and attack estimates

    A shallow embedding of [nodes.js], [evaluator.js], [attack.js] and of the
    guarded removal of [game.js], with the properties of the written
    specification stated against it.

    Conventions of the embedding.
    - Text is a [string] of ASCII characters; [split('')] and [join('')] are
      the conversions to and from [list ascii].  [toUpperCase] is the ASCII
      case mapping (a-z to A-Z, everything else fixed).
    - Integer keys and indices are [Z]; the JavaScript remainder [%] keeps
      the sign of the dividend and is [Z.rem].
    - [undefined] (an array read out of range) is [None]; arithmetic on it is
      [NaN], and [String.fromCharCode(NaN)] is the character of code 0.
    - Coordinates, lengths and areas are IEEE-754 binary64 numbers
      ([PrimFloat]), as JavaScript numbers are.
    - The attack estimates are exact rationals ([Q]); the scores of the
      evaluator, which need [Math.log2], are real numbers ([R]). *)

From Stdlib Require Import ZArith List String Ascii Bool Lia Permutation.
From Stdlib Require Import Floats QArith Qminmax Qround Reals Lra.
Import ListNotations.

(** ** JavaScript primitives used by the sources *)

Module JS.

(** [s.split('')] and [a.join('')] on arrays of one-character strings. *)
Definition split (s : string) : list ascii := list_ascii_of_string s.
Definition join (l : list ascii) : string := string_of_list_ascii l.

(** [c.charCodeAt(0)] *)
Definition charCodeAt (c : ascii) : Z := Z.of_N (N_of_ascii c).

(** [String.fromCharCode(n)]: the code unit is [n] modulo 2^16.  The nodes
    only produce code units below 91. *)
Definition fromCharCode (n : Z) : ascii := ascii_of_N (Z.to_N (n mod 65536)).

(** [String.fromCharCode(NaN)] *)
Definition fromCharCodeNaN : ascii := fromCharCode 0.

(** [/[A-Z]/.test(char)] on a one-character string. *)
Definition testAZ (c : ascii) : bool :=
  (65 <=? charCodeAt c)%Z && (charCodeAt c <=? 90)%Z.

(** The characters a-z. *)
Definition isLower (c : ascii) : bool :=
  (97 <=? charCodeAt c)%Z && (charCodeAt c <=? 122)%Z.

Definition toUpperChar (c : ascii) : ascii :=
  if isLower c then fromCharCode (charCodeAt c - 32) else c.

(** [s.toUpperCase()] *)
Definition toUpperCase (s : string) : string :=
  join (map toUpperChar (split s)).

(** [a % b] on integers. *)
Definition rem (a b : Z) : Z := Z.rem a b.

(** [l.includes(v)] *)
Definition includes (l : list Z) (v : Z) : bool := existsb (Z.eqb v) l.

(** [l[i]] for an integer [i]: [undefined] outside [0 .. length-1]. *)
Definition index {A : Type} (l : list A) (i : Z) : option A :=
  if (i <? 0)%Z then None else nth_error l (Z.to_nat i).

(** [l.splice(start, deleteCount)] as the array it leaves behind. *)
Definition splice {A : Type} (l : list A) (start deleteCount : Z) : list A :=
  let len := Z.of_nat (List.length l) in
  let actualStart :=
    if (start <? 0)%Z then Z.max (len + start) 0 else Z.min start len in
  let actualDeleteCount := Z.min (Z.max deleteCount 0) (len - actualStart) in
  firstn (Z.to_nat actualStart) l
    ++ skipn (Z.to_nat (actualStart + actualDeleteCount)) l.

(** [a || b] on numbers: [b] when [a] is 0. *)
Definition orElse (a b : Z) : Z := if (a =? 0)%Z then b else a.

End JS.

(** ** nodes.js: Shift, Reverse, Multiply *)

Module ShiftNode.

Record t : Type := { key : Z }.

(** [constructor(key = 3)] *)
Definition new (k : Z) : t := {| key := k |}.

(** The arrow function mapped over the characters by [apply]. *)
Definition shiftChar (k : Z) (char : ascii) : ascii :=
  if negb (JS.testAZ char) then char
  else
    let code := (JS.charCodeAt char - 65)%Z in
    let shifted := JS.rem (code + k) 26 in
    JS.fromCharCode (shifted + 65).

(** [apply(input, key)] with the key given. *)
Definition applyKey (input : string) (k : Z) : string :=
  JS.join (map (shiftChar k) (JS.split (JS.toUpperCase input))).

(** [apply(input)]: the key defaults to [this.key]. *)
Definition apply (this : t) (input : string) : string :=
  applyKey input (key this).

End ShiftNode.

Module ReverseNode.

(** [apply(input)] *)
Definition apply (input : string) : string :=
  JS.join (rev (JS.split input)).

End ReverseNode.

Module MultiplyNode.

(** [this.key] holds a number, or [undefined] after a correction that read
    [validKeys] out of range. *)
Record t : Type := { key : option Z }.

Definition validKeys : list Z := [1; 3; 5; 7; 9; 11; 15; 17; 19; 21; 23; 25]%Z.

(** [validateKey(key)]: assigns [this.key] only in the correction branch. *)
Definition validateKey (this : t) (k : Z) : t :=
  if negb (JS.includes validKeys (JS.rem k 26))
  then {| key := JS.index validKeys (JS.rem k (Z.of_nat (List.length validKeys))) |}
  else this.

(** [constructor(key = 5)]: [this.key = key; this.validateKey(key)]. *)
Definition new (k : Z) : t := validateKey {| key := Some k |} k.

(** [setKey(key)] *)
Definition setKey (this : t) (k : Z) : t := validateKey this k.

(** The arrow function mapped over the characters by [apply]; with an
    undefined key the product is [NaN]. *)
Definition multiplyChar (k : option Z) (char : ascii) : ascii :=
  if negb (JS.testAZ char) then char
  else
    let code := (JS.charCodeAt char - 65)%Z in
    match k with
    | Some k => JS.fromCharCode (JS.rem (k * code) 26 + 65)
    | None => JS.fromCharCodeNaN
    end.

Definition applyKey (input : string) (k : option Z) : string :=
  JS.join (map (multiplyChar k) (JS.split (JS.toUpperCase input))).

(** [apply(input)]: the key defaults to [this.key]. *)
Definition apply (this : t) (input : string) : string :=
  applyKey input (key this).

End MultiplyNode.

(** ** nodes.js: geometry utilities *)

Module Geometry.

Local Open Scope float_scope.

Record Point : Type := { x : float; y : float }.

Definition origin : Point := {| x := 0; y := 0 |}.

(** [vertices[i]]; every read of the sources is in range. *)
Definition at_ (vertices : list Point) (i : nat) : Point := nth i vertices origin.

(** [Math.pow(a, 2)], as the rounded product. *)
Definition pow2 (a : float) : float := a * a.

(** [Math.floor(f)] as an integer; [None] for [NaN] and the infinities. *)
Definition floorZ (f : float) : option Z :=
  match Prim2SF f with
  | S754_zero _ => Some 0%Z
  | S754_finite s m e => Some (Z.shiftl (if s then Z.neg m else Z.pos m) e)
  | S754_infinity _ | S754_nan => None
  end.

(** [l[Math.floor(f) % l.length]] *)
Definition indexFloorRem {A : Type} (l : list A) (f : float) : option A :=
  match floorZ f with
  | Some z => JS.index l (JS.rem z (Z.of_nat (List.length l)))
  | None => None
  end.

Definition distance (p1 p2 : Point) : float :=
  PrimFloat.sqrt (pow2 (x p2 - x p1) + pow2 (y p2 - y p1)).

(** Shoelace formula. *)
Definition polygonArea (vertices : list Point) : float :=
  let n := List.length vertices in
  if (n <? 3)%nat then 0
  else
    let area :=
      fold_left
        (fun area i =>
           let j := ((i + 1) mod n)%nat in
           let area := area + x (at_ vertices i) * y (at_ vertices j) in
           area - x (at_ vertices j) * y (at_ vertices i))
        (seq 0 n) 0 in
    PrimFloat.abs (area / 2).

(** The loop of [isConvex] from index [i] on, with the sign seen so far
    ([None] is [null]). *)
Fixpoint isConvexFrom (vertices : list Point) (is_ : list nat)
         (sign : option bool) : bool :=
  match is_ with
  | [] => true
  | i :: rest =>
      let n := List.length vertices in
      let p1 := at_ vertices i in
      let p2 := at_ vertices ((i + 1) mod n) in
      let p3 := at_ vertices ((i + 2) mod n) in
      let cross :=
        (x p2 - x p1) * (y p3 - y p2) - (y p2 - y p1) * (x p3 - x p2) in
      if negb (cross =? 0) then
        match sign with
        | None => isConvexFrom vertices rest (Some (0 <? cross))
        | Some s =>
            if negb (Bool.eqb (0 <? cross) s) then false
            else isConvexFrom vertices rest sign
        end
      else isConvexFrom vertices rest sign
  end.

Definition isConvex (vertices : list Point) : bool :=
  let n := List.length vertices in
  if (n <? 3)%nat then false else isConvexFrom vertices (seq 0 n) None.

Definition getSideLengths (vertices : list Point) : list float :=
  let n := List.length vertices in
  map (fun i => distance (at_ vertices i) (at_ vertices ((i + 1) mod n)))
      (seq 0 n).

(** [lengths.length] as a number. *)
Definition lengthF {A : Type} (l : list A) : float :=
  of_uint63 (Uint63.of_Z (Z.of_nat (List.length l))).

(** Standard deviation of the side lengths. *)
Definition calculateSideVariance (vertices : list Point) : float :=
  let lengths := getSideLengths vertices in
  if (List.length lengths =? 0)%nat then 0
  else
    let mean := fold_left (fun a b => a + b) lengths 0 / lengthF lengths in
    let variance :=
      fold_left (fun sum len => sum + pow2 (len - mean)) lengths 0
        / lengthF lengths in
    PrimFloat.sqrt variance.

Record Validation : Type := { valid : bool; error : string; sides : nat }.

(** The two nested loops of [validatePolygon]: some pair [i < j] of
    vertices is closer than [minDist]. *)
Fixpoint tooClose (minDist : float) (vertices : list Point) : bool :=
  match vertices with
  | [] => false
  | v :: rest =>
      existsb (fun w => distance v w <? minDist) rest || tooClose minDist rest
  end.

Definition validatePolygon (vertices : list Point) : Validation :=
  if (List.length vertices <? 3)%nat then
    {| valid := false; error := "Need at least 3 vertices"; sides := 0 |}
  else if (12 <? List.length vertices)%nat then
    {| valid := false; error := "Too many vertices (max 12)"; sides := 0 |}
  else
    let minDist := 15 in
    if tooClose minDist vertices then
      {| valid := false; error := "Vertices too close together"; sides := 0 |}
    else
      let area := polygonArea vertices in
      if area <? 100 then
        {| valid := false; error := "Polygon too small"; sides := 0 |}
      else
        {| valid := true; error := ""; sides := List.length vertices |}.

End Geometry.

(** ** nodes.js: the polygon node *)

Module PolygonNode.

Import Geometry.

Record t : Type := {
  vertices : list Point;
  sideLengths : list float;
  numSides : Z;
  convex : bool;
  sideVariance : float;
  area : float;
  key : Z
}.

(** [constructor(vertices = [])] *)
Definition new (vs : list Point) : t :=
  let n := Z.of_nat (List.length vs) in
  {| vertices := vs;
     sideLengths := getSideLengths vs;
     numSides := n;
     convex := isConvex vs;
     sideVariance := calculateSideVariance vs;
     area := polygonArea vs;
     key := JS.orElse (JS.rem n 26) 3 |}.

Definition validKeys : list Z := [1; 3; 5; 7; 9; 11; 15; 17; 19; 21; 23; 25]%Z.

(** [apply(input)]: both stages are written out in the method. *)
Definition apply (this : t) (input : string) : string :=
  let shiftAmount := JS.orElse (JS.rem (numSides this) 26) 3 in
  let result := input in
  let result :=
    JS.join
      (map (fun char =>
              if negb (JS.testAZ char) then char
              else
                let code := (JS.charCodeAt char - 65)%Z in
                let shifted := JS.rem (code + shiftAmount) 26 in
                JS.fromCharCode (shifted + 65))
           (JS.split (JS.toUpperCase result))) in
  if convex this then
    let key := indexFloorRem validKeys (sideVariance this * 2)%float in
    JS.join
      (map (fun char =>
              if negb (JS.testAZ char) then char
              else
                let code := (JS.charCodeAt char - 65)%Z in
                match key with
                | Some key => JS.fromCharCode (JS.rem (key * code) 26 + 65)
                | None => JS.fromCharCodeNaN
                end)
           (JS.split result))
  else result.

End PolygonNode.

(** ** nodes.js: the pipeline; game.js: the guarded removal *)

Inductive NodeType : Type := shift | reverse | multiply | polygon.

Inductive CipherNode : Type :=
| Shift (n : ShiftNode.t)
| Reverse
| Multiply (n : MultiplyNode.t)
| Polygon (n : PolygonNode.t).

(** [node.type] *)
Definition type (node : CipherNode) : NodeType :=
  match node with
  | Shift _ => shift
  | Reverse => reverse
  | Multiply _ => multiply
  | Polygon _ => polygon
  end.

(** [node.apply(input)], dispatched on the class of the node. *)
Definition applyNode (node : CipherNode) (input : string) : string :=
  match node with
  | Shift n => ShiftNode.apply n input
  | Reverse => ReverseNode.apply input
  | Multiply n => MultiplyNode.apply n input
  | Polygon n => PolygonNode.apply n input
  end.

Module CipherPipeline.

Record t : Type := { nodes : list CipherNode }.

Definition new : t := {| nodes := [] |}.

Definition addNode (this : t) (node : CipherNode) : t :=
  {| nodes := nodes this ++ [node] |}.

(** [removeNode(index)]: [this.nodes.splice(index, 1)]. *)
Definition removeNode (this : t) (index : Z) : t :=
  {| nodes := JS.splice (nodes this) index 1 |}.

Definition encrypt (this : t) (input : string) : string :=
  fold_left (fun result node => applyNode node result) (nodes this) input.

Definition isEmpty (this : t) : bool := (List.length (nodes this) =? 0)%nat.

Definition length (this : t) : Z := Z.of_nat (List.length (nodes this)).

(** [clear()] *)
Definition clear (this : t) : t := {| nodes := [] |}.

End CipherPipeline.

Module Game.

(** [removeNodeByIndex(index)] of the game, as its effect on the pipeline
    (the refresh of the ciphertext and of the page is not modelled). *)
Definition removeNodeByIndex (pipeline : CipherPipeline.t) (index : Z)
  : CipherPipeline.t :=
  if (0 <=? index)%Z && (index <? CipherPipeline.length pipeline)%Z
  then CipherPipeline.removeNode pipeline index
  else pipeline.

(** [removeLastNode()], as its effect on the pipeline. *)
Definition removeLastNode (pipeline : CipherPipeline.t) : CipherPipeline.t :=
  if (0 <? CipherPipeline.length pipeline)%Z
  then CipherPipeline.removeNode pipeline (CipherPipeline.length pipeline - 1)
  else pipeline.

(** [key || fallback] for a key that is a number, or [null] or [NaN]
    ([None]). *)
Definition keyOr (key : option Z) (fallback : Z) : Z :=
  match key with
  | Some k => JS.orElse k fallback
  | None => fallback
  end.

(** [addNode(nodeType, key = null)], as its effect on the pipeline; an
    unknown node type is reported and nothing is added. *)
Definition addNode (pipeline : CipherPipeline.t) (nodeType : string)
           (key : option Z) : CipherPipeline.t :=
  if String.eqb nodeType "shift" then
    CipherPipeline.addNode pipeline (Shift (ShiftNode.new (keyOr key 3)))
  else if String.eqb nodeType "reverse" then
    CipherPipeline.addNode pipeline Reverse
  else if String.eqb nodeType "multiply" then
    CipherPipeline.addNode pipeline (Multiply (MultiplyNode.new (keyOr key 5)))
  else pipeline.

(** [updateCiphertext()]: the ciphertext shown for a plaintext. *)
Definition updateCiphertext (pipeline : CipherPipeline.t) (plaintext : string)
  : string :=
  CipherPipeline.encrypt pipeline plaintext.

End Game.

(** ** Character counts

    [frequencies[char] = (frequencies[char] || 0) + 1], the table built by
    [calculateEntropy], [analyzeFrequencySkew] and [frequencyAnalysisAttack].
    The table is kept in order of first occurrence; the sums taken over it
    do not depend on the order in exact arithmetic. *)

Module Frequencies.

Definition t : Type := list (ascii * nat).

Fixpoint increment (frequencies : t) (char : ascii) : t :=
  match frequencies with
  | [] => [(char, 1%nat)]
  | (c, n) :: rest =>
      if Ascii.eqb c char then (c, S n) :: rest
      else (c, n) :: increment rest char
  end.

(** The table after the loop [for (const char of chars)]. *)
Definition count (chars : list ascii) : t := fold_left increment chars [].

(** [Object.values(frequencies)] *)
Definition values (frequencies : t) : list nat := map snd frequencies.

(** [Object.keys(frequencies)] *)
Definition keys (frequencies : t) : list ascii := map fst frequencies.

(** [frequencies[char] || 0] *)
Fixpoint lookup (frequencies : t) (char : ascii) : nat :=
  match frequencies with
  | [] => 0%nat
  | (c, n) :: rest => if Ascii.eqb c char then n else lookup rest char
  end.

End Frequencies.

(** ** evaluator.js

    The file declares its functions twice; the later declarations (base
    score 60) are the ones in force and the ones embedded here.  Numbers are
    real numbers.  For two empty strings the source divides 0 by 0 in
    [calculateDiffusion] and scores [NaN]; the results below are stated for
    the other inputs. *)

Module Evaluator.

Local Open Scope R_scope.

(** [Math.log2] *)
Definition log2 (v : R) : R := ln v / ln 2.

Definition calculateEntropy (text : string) : R :=
  let frequencies := Frequencies.count (JS.split text) in
  let entropy := 0 in
  let len := INR (String.length text) in
  fold_left
    (fun entropy (entry : ascii * nat) =>
       let p := INR (snd entry) / len in
       entropy - p * log2 p)
    frequencies entropy.

Definition calculateDiffusion (plaintext ciphertext : string) : R :=
  if negb (String.length plaintext =? String.length ciphertext)%nat then 50
  else
    let changes :=
      fold_left
        (fun changes i =>
           if negb (Ascii.eqb (nth i (JS.split plaintext) Ascii.zero)
                              (nth i (JS.split ciphertext) Ascii.zero))
           then S changes else changes)
        (seq 0 (String.length plaintext)) 0%nat in
    (INR changes / INR (String.length plaintext)) * 100.

Definition analyzeFrequencySkew (text : string) : R :=
  let frequencies := Frequencies.count (filter JS.testAZ (JS.split text)) in
  let freqArray := Frequencies.values frequencies in
  if (List.length freqArray =? 0)%nat then 100
  else
    let avgFreq :=
      fold_left (fun a b => a + INR b) freqArray 0
        / INR (List.length freqArray) in
    let variance :=
      fold_left (fun variance freq => variance + (INR freq - avgFreq) ^ 2)
                freqArray 0 in
    let variance := variance / INR (List.length freqArray) in
    let stdDev := sqrt variance in
    Rmin 100 ((stdDev / avgFreq) * 100).

Definition isSimpleReversal (plaintext ciphertext : string) : bool :=
  let reversed := JS.join (rev (JS.split plaintext)) in
  String.eqb reversed ciphertext.

Definition isIdentical (plaintext ciphertext : string) : bool :=
  String.eqb plaintext ciphertext.

Definition estimateKeySpace (pipeline : CipherPipeline.t) : R :=
  fold_left
    (fun bits node =>
       match type node with
       | shift => bits + log2 26
       | multiply => bits + log2 12
       | reverse => bits + 1
       | _ => bits + 1
       end)
    (CipherPipeline.nodes pipeline) 0.

Record ScoreBreakdown : Type := {
  base : R;
  entropy : R;
  diffusion : R;
  keySpace : R;
  penalties : R;
  final : R
}.

(** The assignments to the fields of [breakdown]. *)
Definition setEntropy (b : ScoreBreakdown) (v : R) : ScoreBreakdown :=
  {| base := base b; entropy := v; diffusion := diffusion b;
     keySpace := keySpace b; penalties := penalties b; final := final b |}.
Definition setDiffusion (b : ScoreBreakdown) (v : R) : ScoreBreakdown :=
  {| base := base b; entropy := entropy b; diffusion := v;
     keySpace := keySpace b; penalties := penalties b; final := final b |}.
Definition setKeySpace (b : ScoreBreakdown) (v : R) : ScoreBreakdown :=
  {| base := base b; entropy := entropy b; diffusion := diffusion b;
     keySpace := v; penalties := penalties b; final := final b |}.
Definition setFinal (b : ScoreBreakdown) (v : R) : ScoreBreakdown :=
  {| base := base b; entropy := entropy b; diffusion := diffusion b;
     keySpace := keySpace b; penalties := penalties b; final := v |}.

(** [if (cond) { breakdown.penalties -= amount; score -= amount; }] on the
    pair of the two variables. *)
Definition penalise (cond : bool) (amount : R)
           (st : ScoreBreakdown * R) : ScoreBreakdown * R :=
  if cond then
    let (b, score) := st in
    ({| base := base b; entropy := entropy b; diffusion := diffusion b;
        keySpace := keySpace b; penalties := penalties b - amount;
        final := final b |},
     score - amount)
  else st.

(** [v < bound] *)
Definition ltb (v bound : R) : bool := if Rlt_dec v bound then true else false.

Definition evaluateCipher (plaintext ciphertext : string)
           (pipeline : CipherPipeline.t) : ScoreBreakdown :=
  let score := 60 in
  let breakdown :=
    {| base := 60; entropy := 0; diffusion := 0; keySpace := 0;
       penalties := 0; final := 0 |} in
  (* 1. entropy boost *)
  let ciphertextEntropy := calculateEntropy ciphertext in
  let plaintextEntropy := calculateEntropy plaintext in
  let entropyDelta := Rmax 0 (ciphertextEntropy - plaintextEntropy) in
  let entropyBoost := Rmin 20 (entropyDelta * 8) in
  let breakdown := setEntropy breakdown entropyBoost in
  let score := score + entropyBoost in
  (* 2. diffusion *)
  let diffusion := calculateDiffusion plaintext ciphertext in
  let diffusionScore := Rmin 12 (diffusion * (12 / 100)) in
  let breakdown := setDiffusion breakdown diffusionScore in
  let score := score + diffusionScore in
  (* 3. key space *)
  let keySpaceBits := estimateKeySpace pipeline in
  let keySpaceScore := Rmin 8 keySpaceBits in
  let breakdown := setKeySpace breakdown keySpaceScore in
  let score := score + keySpaceScore in
  (* 4. penalties *)
  let st := (breakdown, score) in
  let st := penalise (isIdentical plaintext ciphertext) 25 st in
  let st := penalise (isSimpleReversal plaintext ciphertext) 15 st in
  let st := penalise (ltb diffusion 30) 10 st in
  let freqSkew := analyzeFrequencySkew ciphertext in
  let st := penalise (ltb freqSkew 20) 5 st in
  let st := penalise (CipherPipeline.isEmpty pipeline) 40 st in
  let (breakdown, score) := st in
  setFinal breakdown (Rmax 0 (Rmin 100 score)).

(** [checkPass(score, threshold)] *)
Definition checkPass (score threshold : R) : bool :=
  if Rge_dec score threshold then true else false.

End Evaluator.

(** ** attack.js

    Counts and penalties are integers; frequencies and durations are exact
    rationals.  The display strings of the reports are not modelled. *)

Module Attack.

Local Open Scope Q_scope.

(** [a < b] *)
Definition ltb (a b : Q) : bool := negb (Qle_bool b a).

(** [freqValues.sort((a, b) => b - a)]: descending order. *)
Fixpoint insertDesc (v : Q) (l : list Q) : list Q :=
  match l with
  | [] => [v]
  | w :: rest => if Qle_bool w v then v :: l else w :: insertDesc v rest
  end.

Definition sortDesc (l : list Q) : list Q := fold_right insertDesc [] l.

(** [Math.round(v)]: the nearest integer, halves upwards. *)
Definition round (v : Q) : Z := Qfloor (v + (1 # 2)).

(** The penalty of [frequencyAnalysisAttack(ciphertext)]. *)
Definition frequencyAnalysisAttack (ciphertext : string) : Z :=
  let letters := filter JS.testAZ (JS.split ciphertext) in
  let frequencies := Frequencies.count letters in
  if (List.length letters =? 0)%nat then 0%Z
  else
    let freqValues :=
      map (fun f => inject_Z (Z.of_nat f) / inject_Z (Z.of_nat (List.length letters)))
          (Frequencies.values frequencies) in
    let freqValues := sortDesc freqValues in
    let topFreq := nth 0 freqValues 0 in
    let domination := Qmax 0 (topFreq - (15 # 100)) in
    let penalty := Qmin 30 (domination * 100) in
    round penalty.

Record BruteForce : Type := { penalty : Z; combinations : Z }.

Definition bruteForceAttack (pipeline : CipherPipeline.t) : BruteForce :=
  let totalCombinations :=
    fold_left
      (fun totalCombinations node =>
         let keySpace :=
           match type node with
           | shift => 26
           | multiply => 12
           | reverse => 2
           | _ => 2
           end%Z in
         (totalCombinations * keySpace)%Z)
      (CipherPipeline.nodes pipeline) 1%Z in
  let testRate := 1000000%Z in
  let secondsNeeded := inject_Z totalCombinations / inject_Z testRate in
  let minutesNeeded := secondsNeeded / 60 in
  let hoursNeeded := minutesNeeded / 60 in
  let penalty :=
    if ltb secondsNeeded 1 then 40%Z
    else if ltb secondsNeeded 60 then 30%Z
    else if ltb minutesNeeded 60 then 15%Z
    else if ltb hoursNeeded 24 then 5%Z
    else 0%Z in
  {| penalty := penalty; combinations := totalCombinations |}.

Record Report : Type := {
  attacks : list (string * Z);
  totalPenalty : Z;
  showAnimation : bool
}.

Definition runAttacks (plaintext ciphertext : string)
           (pipeline : CipherPipeline.t) : Report :=
  let attacks := [] in
  let totalPenalty := 0%Z in
  let freqAttack := frequencyAnalysisAttack ciphertext in
  let attacks := attacks ++ [("Frequency Analysis"%string, freqAttack)] in
  let totalPenalty := (totalPenalty + freqAttack)%Z in
  let bfAttack := bruteForceAttack pipeline in
  let attacks :=
    attacks ++ [("Brute Force Estimation"%string, penalty bfAttack)] in
  let totalPenalty := (totalPenalty + penalty bfAttack)%Z in
  {| attacks := attacks;
     totalPenalty := Z.min 50 totalPenalty;
     showAnimation := (0 <? totalPenalty)%Z |}.

End Attack.

(** ** attack.js: pattern detection *)

Module Patterns.

Definition Digram : Type := (ascii * ascii)%type.

(** Equality of two-character strings. *)
Definition eqb (d e : Digram) : bool :=
  Ascii.eqb (fst d) (fst e) && Ascii.eqb (snd d) (snd e).

(** [ciphertext.slice(i, i + 2)] for [i] from 0 to [length - 2]. *)
Fixpoint slices (chars : list ascii) : list Digram :=
  match chars with
  | a :: rest =>
      match rest with
      | b :: _ => (a, b) :: slices rest
      | [] => []
      end
  | [] => []
  end.

(** [digrams[digram] = (digrams[digram] || 0) + 1] *)
Fixpoint increment (digrams : list (Digram * nat)) (digram : Digram)
  : list (Digram * nat) :=
  match digrams with
  | [] => [(digram, 1%nat)]
  | (d, n) :: rest =>
      if eqb d digram then (d, S n) :: rest
      else (d, n) :: increment rest digram
  end.

(** The table [digrams] after the first loop. *)
Definition count (chars : list ascii) : list (Digram * nat) :=
  fold_left increment (slices chars) [].

(** [digrams[digram] || 0] *)
Fixpoint lookup (digrams : list (Digram * nat)) (digram : Digram) : nat :=
  match digrams with
  | [] => 0%nat
  | (d, n) :: rest => if eqb d digram then n else lookup rest digram
  end.

(** The second loop: some [i] has [b === a + 1 && c === b + 1] for the
    codes of the characters at [i], [i + 1], [i + 2]; the loop stops at the
    first. *)
Fixpoint hasSequence (chars : list ascii) : bool :=
  match chars with
  | a :: rest =>
      match rest with
      | b :: c :: _ =>
          ((JS.charCodeAt b =? JS.charCodeAt a + 1)%Z
           && (JS.charCodeAt c =? JS.charCodeAt b + 1)%Z)
          || hasSequence rest
      | _ => false
      end
  | [] => false
  end.

Definition digramWarning : string :=
  "Repeating letter pairs detected (digram weakness)".
Definition sequenceWarning : string :=
  "Alphabetic sequence detected (structural weakness)".

(** [detectPatterns(ciphertext)] *)
Definition detectPatterns (ciphertext : string) : list string :=
  let warnings := [] in
  let digrams := count (JS.split ciphertext) in
  let repeatedDigrams := filter (fun count => (1 <? count)%nat) (map snd digrams) in
  let warnings :=
    if (0 <? List.length repeatedDigrams)%nat then warnings ++ [digramWarning]
    else warnings in
  if hasSequence (JS.split ciphertext) then warnings ++ [sequenceWarning]
  else warnings.

End Patterns.

(** ** game.js: the score of a transmission *)

Module CipherDashGame.

(** [threatenedScore] of [transmitSignal()]: the final score less the total
    attack penalty, not below 0. *)
Definition threatenedScore (plaintext ciphertext : string)
           (pipeline : CipherPipeline.t) : R :=
  let scoreBreakdown := Evaluator.evaluateCipher plaintext ciphertext pipeline in
  let lastScore := Evaluator.final scoreBreakdown in
  let attackResults := Attack.runAttacks plaintext ciphertext pipeline in
  Rmax 0 (lastScore - IZR (Attack.totalPenalty attackResults)).

(** The score part of [passed] in [transmitSignal()]. *)
Definition scorePasses (plaintext ciphertext : string)
           (pipeline : CipherPipeline.t) (threshold : R) : bool :=
  Evaluator.checkPass (threatenedScore plaintext ciphertext pipeline) threshold.

End CipherDashGame.

(** ** Inputs used in the examples *)

Module Examples.

Import Geometry.
Local Open Scope float_scope.

(** The square (0,0), (10,0), (10,10), (0,10). *)
Definition square : list Point :=
  [ {| x := 0; y := 0 |}; {| x := 10; y := 0 |};
    {| x := 10; y := 10 |}; {| x := 0; y := 10 |} ].

(** A triangle of area exactly 100 whose vertices are far apart. *)
Definition flatTriangle : list Point :=
  [ {| x := 0; y := 0 |}; {| x := 40; y := 0 |}; {| x := 20; y := 5 |} ].

(** A pipeline of one Reverse and one Shift node. *)
Definition twoNodes : CipherPipeline.t :=
  {| CipherPipeline.nodes := [Reverse; Shift (ShiftNode.new 3)] |}.

End Examples.

(** ** Notions of the written specification *)

Module Spec.

(** The text holds no character a-z. *)
Definition noLowercase (s : string) : Prop :=
  Forall (fun c => JS.isLower c = false) (JS.split s).

(** The character at position [i] of the text. *)
Definition charAt (s : string) (i : nat) : option ascii :=
  nth_error (JS.split s) i.

(** [numSides mod 26], or 3 if that value is 0. *)
Definition polygonShiftKey (numSides : nat) : Z :=
  let m := (Z.of_nat numSides mod 26)%Z in
  if (m =? 0)%Z then 3%Z else m.

(** The number of keys a node stands for: Shift 26, Multiply 12,
    Reverse 2, any other type 2. *)
Definition multiplicity (node : CipherNode) : Z :=
  match node with
  | Shift _ => 26
  | Multiply _ => 12
  | Reverse => 2
  | Polygon _ => 2
  end%Z.

(** The product of the multiplicities; 1 for no node. *)
Definition totalCombinations (nodes : list CipherNode) : Z :=
  fold_right (fun node total => (multiplicity node * total)%Z) 1%Z nodes.

(** Seconds to exhaust the keys at 1,000,000 tests per second. *)
Definition secondsToExhaust (nodes : list CipherNode) : Q :=
  (inject_Z (totalCombinations nodes) / 1000000)%Q.

(** The penalty by time bucket: under one second, under 60 seconds,
    under 60 minutes, under 24 hours, longer. *)
Definition timeBucket (seconds : Q) : Z :=
  if Attack.ltb seconds 1 then 40%Z
  else if Attack.ltb seconds 60 then 30%Z
  else if Attack.ltb seconds (60 * 60) then 15%Z
  else if Attack.ltb seconds (24 * 60 * 60) then 5%Z
  else 0%Z.

(** The number of occurrences of [c] in the text. *)
Definition occurrences (s : string) (c : ascii) : nat :=
  count_occ ascii_dec (JS.split s) c.

Definition sum (l : list R) : R := fold_right Rplus 0%R l.

(** Shannon entropy, in bits, of the distribution of the characters of
    the whole text: minus the sum, over the distinct characters, of
    [p * log2 p] for the relative frequency [p] of the character. *)
Definition shannon (s : string) : R :=
  (- sum (map (fun c =>
                 let p := INR (occurrences s c) / INR (String.length s) in
                 p * Evaluator.log2 p)
              (nodup ascii_dec (JS.split s))))%R.

(** The percentage of positions at which the two texts differ; fixed at
    50 when their lengths differ. *)
Definition pctChanged (plaintext ciphertext : string) : R :=
  if (String.length plaintext =? String.length ciphertext)%nat then
    (INR (List.length
            (filter (fun ab : ascii * ascii => negb (Ascii.eqb (fst ab) (snd ab)))
                    (combine (JS.split plaintext) (JS.split ciphertext))))
     / INR (String.length plaintext) * 100)%R
  else 50%R.

(** The key space in bits: the sum of [log2] of the multiplicities. *)
Definition keySpaceBits (nodes : list CipherNode) : R :=
  sum (map (fun node => Evaluator.log2 (IZR (multiplicity node))) nodes).

(** The exact character-reversal of a text. *)
Definition reversal (s : string) : string := JS.join (rev (JS.split s)).

(** The penalties, each applying on its own: the ciphertext equals the
    plaintext, it is its reversal, fewer than 30 percent of the characters
    changed, the skew of the letter frequencies is under 20, the pipeline
    is empty. *)
Definition penalties (plaintext ciphertext : string) (skew : R)
           (nodes : list CipherNode) : R :=
  ((if string_dec ciphertext plaintext then - 25 else 0)
   + (if string_dec ciphertext (reversal plaintext) then - 15 else 0)
   + (if Rlt_dec (pctChanged plaintext ciphertext) 30 then - 10 else 0)
   + (if Rlt_dec skew 20 then - 5 else 0)
   + (match nodes with [] => - 40 | _ :: _ => 0 end))%R.

Definition clamp (v lo hi : R) : R := Rmax lo (Rmin hi v).

(** What a node does to the character at one position of its input (Reverse
    moves characters and changes none). *)
Definition charMap (node : CipherNode) (c : ascii) : ascii :=
  match node with
  | Shift n => ShiftNode.shiftChar (ShiftNode.key n) (JS.toUpperChar c)
  | Reverse => c
  | Multiply n => MultiplyNode.multiplyChar (MultiplyNode.key n) (JS.toUpperChar c)
  | Polygon n =>
      let shifted :=
        ShiftNode.shiftChar (JS.orElse (JS.rem (PolygonNode.numSides n) 26) 3)
                            (JS.toUpperChar c) in
      if PolygonNode.convex n
      then MultiplyNode.multiplyChar
             (Geometry.indexFloorRem MultiplyNode.validKeys
                (PolygonNode.sideVariance n * 2)%float) shifted
      else shifted
  end.

(** A letter, of either case. *)
Definition isLetter (c : ascii) : bool := JS.testAZ c || JS.isLower c.

(** The Shannon entropy of a list of characters. *)
Definition entropyOfChars (l : list ascii) : R :=
  (- sum (map (fun c =>
                 let p := INR (count_occ ascii_dec l c) / INR (List.length l) in
                 p * Evaluator.log2 p)
              (nodup ascii_dec l)))%R.

(** A node that substitutes letters one for one or moves them: Reverse, a
    Shift with a non-negative key, a Multiply whose stored key is a
    non-negative number with a residue among the coprime keys, a polygon
    node whose multiply key, when it is used, is defined. *)
Definition substitution (node : CipherNode) : Prop :=
  match node with
  | Shift n => (0 <= ShiftNode.key n)%Z
  | Reverse => True
  | Multiply n =>
      exists v, MultiplyNode.key n = Some v /\ (0 <= v)%Z /\
                In (v mod 26)%Z MultiplyNode.validKeys
  | Polygon n =>
      (0 <= PolygonNode.numSides n)%Z /\
      (PolygonNode.convex n = true ->
       exists v, Geometry.indexFloorRem MultiplyNode.validKeys
                   (PolygonNode.sideVariance n * 2)%float = Some v)
  end.

(** The brute-force penalty by the number of combinations, at 1,000,000
    tests per second. *)
Definition combinationBucket (combinations : Z) : Z :=
  if (combinations <? 1000000)%Z then 40%Z
  else if (combinations <? 60 * 1000000)%Z then 30%Z
  else if (combinations <? 3600 * 1000000)%Z then 15%Z
  else if (combinations <? 86400 * 1000000)%Z then 5%Z
  else 0%Z.

End Spec.

(** * Properties *)

(** ** Text primitives *)

Lemma join_split (s : string) : JS.join (JS.split s) = s.
Proof. apply string_of_list_ascii_of_string. Qed.

Lemma split_join (l : list ascii) : JS.split (JS.join l) = l.
Proof. apply list_ascii_of_string_of_list_ascii. Qed.

Lemma includes_In (l : list Z) (v : Z) : JS.includes l v = true <-> In v l.
Proof.
  unfold JS.includes. rewrite existsb_exists. split.
  - intros [w [Hw Heq]]. apply Z.eqb_eq in Heq. now subst.
  - intros Hin. exists v. split; [assumption | apply Z.eqb_refl].
Qed.

(** ** Reverse *)

(** C8: applying Reverse twice returns the original string, for every
    input. *)
Theorem C8_reverse_involution (input : string) :
  ReverseNode.apply (ReverseNode.apply input) = input.
Proof.
  unfold ReverseNode.apply.
  now rewrite split_join, rev_involutive, join_split.
Qed.

(** ** Multiply: the stored key *)

(** C9: when the remainder of [k] by 26 (as [validateKey] computes it, with
    [%]) is in the coprime set, [setKey k] leaves the stored key as it was:
    the new key is ignored. *)
Theorem C9_setKey_valid_key_ignored (this : MultiplyNode.t) (k : Z) :
  In (JS.rem k 26) MultiplyNode.validKeys ->
  MultiplyNode.key (MultiplyNode.setKey this k) = MultiplyNode.key this.
Proof.
  intros Hin. unfold MultiplyNode.setKey, MultiplyNode.validateKey.
  apply includes_In in Hin. now rewrite Hin.
Qed.

Lemma C9_setKey_valid_key_ignored_witness :
  In (JS.rem 7 26) MultiplyNode.validKeys /\
  MultiplyNode.key (MultiplyNode.setKey (MultiplyNode.new 5) 7) = Some 5%Z.
Proof.
  split.
  - vm_compute. tauto.
  - apply (C9_setKey_valid_key_ignored (MultiplyNode.new 5) 7).
    vm_compute. tauto.
Defined.

Lemma validKeys_coprime (v : Z) :
  In v MultiplyNode.validKeys -> Z.gcd v 26 = 1%Z.
Proof.
  unfold MultiplyNode.validKeys. simpl.
  intros H; repeat (destruct H as [H | H]; [subst v; reflexivity | ]).
  contradiction.
Qed.

Lemma rem_valid_coprime (k : Z) :
  In (JS.rem k 26) MultiplyNode.validKeys -> Z.gcd k 26 = 1%Z.
Proof.
  intros Hin. apply validKeys_coprime in Hin. unfold JS.rem in Hin.
  rewrite (Z.quot_rem' k 26) at 1.
  rewrite Z.gcd_comm, Z.add_comm, Z.mul_comm.
  rewrite Z.gcd_add_mult_diag_r. now rewrite Z.gcd_comm.
Qed.

Lemma fallback_in_validKeys (k : Z) :
  (0 <= k)%Z ->
  exists v, JS.index MultiplyNode.validKeys
              (JS.rem k (Z.of_nat (List.length MultiplyNode.validKeys))) = Some v
            /\ In v MultiplyNode.validKeys.
Proof.
  intros Hk. unfold JS.rem, JS.index.
  change (Z.of_nat (List.length MultiplyNode.validKeys)) with 12%Z.
  pose proof (Z.rem_bound_pos k 12 Hk ltac:(lia)) as Hb.
  destruct (Z.rem k 12 <? 0)%Z eqn:Hneg; [apply Z.ltb_lt in Hneg; lia | ].
  destruct (nth_error MultiplyNode.validKeys (Z.to_nat (Z.rem k 12))) as [v | ] eqn:Hnth.
  - exists v. split; [reflexivity | eapply nth_error_In; eassumption].
  - apply nth_error_None in Hnth. simpl in Hnth. lia.
Qed.

(** C4 (as amended): for a non-negative key, the key stored by the
    constructor is coprime to 26; it is the supplied key when its remainder
    by 26 is in the set, and otherwise the member of the set at position
    [key % 12].  [setKey] keeps a coprime key coprime.  Multiply(13) stores
    3. *)
Theorem C4_multiply_key_coprime (k : Z) :
  (0 <= k)%Z ->
  (exists v,
      MultiplyNode.key (MultiplyNode.new k) = Some v /\ Z.gcd v 26 = 1%Z /\
      (In (JS.rem k 26) MultiplyNode.validKeys -> v = k) /\
      (~ In (JS.rem k 26) MultiplyNode.validKeys ->
       JS.index MultiplyNode.validKeys (JS.rem k 12) = Some v /\
       In v MultiplyNode.validKeys)) /\
  (forall this v0,
      MultiplyNode.key this = Some v0 -> Z.gcd v0 26 = 1%Z ->
      exists v, MultiplyNode.key (MultiplyNode.setKey this k) = Some v /\
                Z.gcd v 26 = 1%Z) /\
  MultiplyNode.key (MultiplyNode.new 13) = Some 3%Z.
Proof.
  intros Hk. split; [ | split; [ | reflexivity]].
  - unfold MultiplyNode.new, MultiplyNode.validateKey.
    destruct (JS.includes MultiplyNode.validKeys (JS.rem k 26)) eqn:Hinc;
      cbn [negb MultiplyNode.key].
    + apply includes_In in Hinc. exists k. split; [reflexivity | ].
      split; [now apply rem_valid_coprime | ].
      split; [reflexivity | intros Hn; contradiction].
    + destruct (fallback_in_validKeys k Hk) as [v [Hv Hin]].
      exists v. split; [exact Hv | ].
      split; [now apply validKeys_coprime | ].
      split.
      * intros Hyes. apply includes_In in Hyes. congruence.
      * intros _. split; [exact Hv | exact Hin].
  - intros this v0 Hkey Hgcd. unfold MultiplyNode.setKey, MultiplyNode.validateKey.
    destruct (JS.includes MultiplyNode.validKeys (JS.rem k 26)) eqn:Hinc;
      cbn [negb MultiplyNode.key].
    + exists v0. now split.
    + destruct (fallback_in_validKeys k Hk) as [v [Hv Hin]].
      exists v. split; [exact Hv | now apply validKeys_coprime].
Qed.

Lemma C4_multiply_key_coprime_witness :
  (0 <= 26)%Z /\
  exists v, MultiplyNode.key (MultiplyNode.new 26) = Some v /\ Z.gcd v 26 = 1%Z.
Proof.
  split; [lia | ].
  destruct (C4_multiply_key_coprime 26 ltac:(lia)) as [[v [Hv [Hg _]]] _].
  exists v. now split.
Defined.

(** C4 as stated fails: Multiply(27) stores 27, which is not a member of
    the set. *)
Lemma C4_stored_key_not_in_set :
  ~ (exists v, MultiplyNode.key (MultiplyNode.new 27) = Some v /\
               In v MultiplyNode.validKeys).
Proof.
  intros [v [Hv Hin]]. vm_compute in Hv. injection Hv as <-.
  simpl in Hin. repeat (destruct Hin as [Hin | Hin]; [discriminate Hin | ]).
  exact Hin.
Qed.

(** A negative key whose remainder is not in the set leaves the key
    undefined: the read of [validKeys] is out of range. *)
Lemma multiply_negative_key_undefined :
  MultiplyNode.key (MultiplyNode.new (-2)) = None.
Proof. reflexivity. Qed.

(** ** Shift with a negative key *)

(** C5 at the key -3: the letter A becomes the character of code 62, which
    is not a letter. *)
Theorem C5_shift_negative_key_leaves_alphabet :
  ShiftNode.apply (ShiftNode.new (-3)) "A" = ">"%string /\
  JS.testAZ ">" = false.
Proof. split; reflexivity. Qed.

(** ** Geometry *)

(** C3 (as amended): the square has area exactly 100 and is rejected,
    because its first two vertices are 10 apart, closer than 15; the area
    test itself admits the value 100, as the triangle (0,0), (40,0), (20,5)
    of area exactly 100 is valid. *)
Theorem C3_square_area_and_validation :
  Geometry.polygonArea Examples.square = 100%float /\
  Geometry.distance (Geometry.at_ Examples.square 0)
                    (Geometry.at_ Examples.square 1) = 10%float /\
  Geometry.validatePolygon Examples.square =
    {| Geometry.valid := false;
       Geometry.error := "Vertices too close together";
       Geometry.sides := 0 |} /\
  Geometry.polygonArea Examples.flatTriangle = 100%float /\
  Geometry.validatePolygon Examples.flatTriangle =
    {| Geometry.valid := true; Geometry.error := ""; Geometry.sides := 3 |}.
Proof. repeat split; vm_compute; reflexivity. Qed.

(** C3 as stated fails: the square is not valid. *)
Lemma C3_square_is_rejected :
  ~ (Geometry.polygonArea Examples.square = 100%float /\
     Geometry.valid (Geometry.validatePolygon Examples.square) = true).
Proof. intros [_ H]. vm_compute in H. discriminate H. Qed.

(** ** Removal from the pipeline *)

Lemma splice_beyond_end {A : Type} (l : list A) (start : Z) :
  (Z.of_nat (List.length l) <= start)%Z -> JS.splice l start 1 = l.
Proof.
  intros Hge. unfold JS.splice.
  destruct (start <? 0)%Z eqn:Hneg; [apply Z.ltb_lt in Hneg; lia | ].
  rewrite Z.min_r by lia. rewrite Z.sub_diag.
  rewrite Z.min_r by lia. rewrite Z.add_0_r, Nat2Z.id.
  now rewrite firstn_all, skipn_all, app_nil_r.
Qed.

(** C7 (as amended): with the guard of the game, removal at an index out of
    range (negative, or at least the length) leaves the pipeline as it was;
    [removeNode] itself leaves it as it was for an index at least the
    length. *)
Theorem C7_remove_out_of_range (pipeline : CipherPipeline.t) (index : Z) :
  (index < 0 \/ CipherPipeline.length pipeline <= index)%Z ->
  Game.removeNodeByIndex pipeline index = pipeline /\
  ((CipherPipeline.length pipeline <= index)%Z ->
   CipherPipeline.nodes (CipherPipeline.removeNode pipeline index)
   = CipherPipeline.nodes pipeline).
Proof.
  intros Hout. split.
  - unfold Game.removeNodeByIndex.
    destruct (0 <=? index)%Z eqn:H0; simpl; [ | reflexivity].
    destruct (index <? CipherPipeline.length pipeline)%Z eqn:H1; [ | reflexivity].
    apply Z.leb_le in H0. apply Z.ltb_lt in H1. lia.
  - intros Hge. unfold CipherPipeline.removeNode. simpl.
    now apply splice_beyond_end.
Qed.

Lemma C7_remove_out_of_range_witness :
  (5 < 0 \/ CipherPipeline.length Examples.twoNodes <= 5)%Z /\
  Game.removeNodeByIndex Examples.twoNodes 5 = Examples.twoNodes.
Proof.
  split.
  - right. vm_compute. discriminate.
  - apply (C7_remove_out_of_range Examples.twoNodes 5).
    right. vm_compute. discriminate.
Defined.

(** C7 as stated fails: [removeNode(-1)] removes the last node. *)
Lemma C7_negative_index_removes_last :
  (-1 < 0)%Z /\
  CipherPipeline.nodes (CipherPipeline.removeNode Examples.twoNodes (-1))
  = [Reverse] /\
  CipherPipeline.nodes (CipherPipeline.removeNode Examples.twoNodes (-1))
  <> CipherPipeline.nodes Examples.twoNodes.
Proof.
  split; [lia | ]. split; [reflexivity | ]. vm_compute. discriminate.
Qed.

(** ** Characters *)

Lemma charCodeAt_range (c : ascii) : (0 <= JS.charCodeAt c < 256)%Z.
Proof.
  unfold JS.charCodeAt. pose proof (N_ascii_bounded c) as Hb. lia.
Qed.

Lemma charCodeAt_fromCharCode (n : Z) :
  (0 <= n < 256)%Z -> JS.charCodeAt (JS.fromCharCode n) = n.
Proof.
  intros Hn. unfold JS.charCodeAt, JS.fromCharCode.
  rewrite Z.mod_small by lia.
  rewrite N_ascii_embedding by lia. lia.
Qed.

Lemma testAZ_true (c : ascii) :
  JS.testAZ c = true <-> (65 <= JS.charCodeAt c <= 90)%Z.
Proof. unfold JS.testAZ. rewrite andb_true_iff, !Z.leb_le. tauto. Qed.

Lemma isLower_true (c : ascii) :
  JS.isLower c = true <-> (97 <= JS.charCodeAt c <= 122)%Z.
Proof. unfold JS.isLower. rewrite andb_true_iff, !Z.leb_le. tauto. Qed.

Lemma isLower_false (c : ascii) :
  JS.isLower c = false <-> (JS.charCodeAt c < 97 \/ 122 < JS.charCodeAt c)%Z.
Proof.
  unfold JS.isLower. rewrite andb_false_iff, !Z.leb_gt. tauto.
Qed.

Lemma isLower_fromCharCode (n : Z) :
  (0 <= n < 97)%Z -> JS.isLower (JS.fromCharCode n) = false.
Proof.
  intros Hn. apply isLower_false. rewrite charCodeAt_fromCharCode by lia. lia.
Qed.

Lemma testAZ_fromCharCode (n : Z) :
  (65 <= n <= 90)%Z -> JS.testAZ (JS.fromCharCode n) = true.
Proof.
  intros Hn. apply testAZ_true. rewrite charCodeAt_fromCharCode by lia. lia.
Qed.

Lemma toUpperChar_not_lower (c : ascii) : JS.isLower (JS.toUpperChar c) = false.
Proof.
  unfold JS.toUpperChar. destruct (JS.isLower c) eqn:Hl; [ | exact Hl].
  apply isLower_true in Hl. apply isLower_fromCharCode. lia.
Qed.

Lemma toUpperChar_fixed (c : ascii) :
  JS.isLower c = false -> JS.toUpperChar c = c.
Proof. intros Hl. unfold JS.toUpperChar. now rewrite Hl. Qed.

Lemma toUpperChar_letter (c : ascii) :
  JS.isLower c = true -> JS.testAZ (JS.toUpperChar c) = true.
Proof.
  intros Hl. unfold JS.toUpperChar. rewrite Hl.
  apply isLower_true in Hl. apply testAZ_fromCharCode. lia.
Qed.

Lemma rem26_bounds (a : Z) : (-26 < JS.rem a 26 < 26)%Z.
Proof.
  unfold JS.rem. pose proof (Z.rem_bound_abs a 26 ltac:(lia)) as Hb. lia.
Qed.

Lemma rem26_nonneg (a : Z) : (0 <= a)%Z -> (0 <= JS.rem a 26 < 26)%Z.
Proof. intros Ha. unfold JS.rem. apply Z.rem_bound_pos; lia. Qed.

(** *** The character maps of Shift and Multiply *)

Lemma shiftChar_not_lower (k : Z) (c : ascii) :
  JS.isLower c = false -> JS.isLower (ShiftNode.shiftChar k c) = false.
Proof.
  intros Hl. unfold ShiftNode.shiftChar.
  destruct (JS.testAZ c); simpl; [ | exact Hl].
  apply isLower_fromCharCode.
  pose proof (rem26_bounds (JS.charCodeAt c - 65 + k)). lia.
Qed.

Lemma multiplyChar_not_lower (k : option Z) (c : ascii) :
  JS.isLower c = false -> JS.isLower (MultiplyNode.multiplyChar k c) = false.
Proof.
  intros Hl. unfold MultiplyNode.multiplyChar.
  destruct (JS.testAZ c); simpl; [ | exact Hl].
  destruct k as [k | ].
  - apply isLower_fromCharCode.
    pose proof (rem26_bounds (k * (JS.charCodeAt c - 65))). lia.
  - reflexivity.
Qed.

Lemma shiftChar_letter (k : Z) (c : ascii) :
  (0 <= k)%Z -> JS.testAZ c = true -> JS.testAZ (ShiftNode.shiftChar k c) = true.
Proof.
  intros Hk Hc. unfold ShiftNode.shiftChar. rewrite Hc. simpl.
  apply testAZ_true in Hc. apply testAZ_fromCharCode.
  pose proof (rem26_nonneg (JS.charCodeAt c - 65 + k) ltac:(lia)). lia.
Qed.

Lemma multiplyChar_letter (k : Z) (c : ascii) :
  (0 <= k)%Z -> JS.testAZ c = true ->
  JS.testAZ (MultiplyNode.multiplyChar (Some k) c) = true.
Proof.
  intros Hk Hc. unfold MultiplyNode.multiplyChar. rewrite Hc. simpl.
  apply testAZ_true in Hc. apply testAZ_fromCharCode.
  pose proof (rem26_nonneg (k * (JS.charCodeAt c - 65)) ltac:(nia)). lia.
Qed.

Create HintDb chars.
#[export] Hint Resolve toUpperChar_not_lower shiftChar_not_lower
  multiplyChar_not_lower toUpperChar_letter shiftChar_letter
  multiplyChar_letter : chars.

(** *** Texts *)

Lemma split_toUpperCase (s : string) :
  JS.split (JS.toUpperCase s) = map JS.toUpperChar (JS.split s).
Proof. unfold JS.toUpperCase. apply split_join. Qed.

Lemma toUpperCase_fixed (s : string) :
  Spec.noLowercase s -> JS.toUpperCase s = s.
Proof.
  unfold Spec.noLowercase, JS.toUpperCase. intros Hs.
  rewrite <- (join_split s) at 2. f_equal.
  induction Hs as [ | c l Hc _ IH]; simpl; [reflexivity | ].
  now rewrite toUpperChar_fixed, IH.
Qed.

Lemma toUpperCase_noLowercase (s : string) : Spec.noLowercase (JS.toUpperCase s).
Proof.
  unfold Spec.noLowercase. rewrite split_toUpperCase.
  apply Forall_map, Forall_forall. intros c _. apply toUpperChar_not_lower.
Qed.

Lemma toUpperCase_idempotent (s : string) :
  JS.toUpperCase (JS.toUpperCase s) = JS.toUpperCase s.
Proof. apply toUpperCase_fixed, toUpperCase_noLowercase. Qed.

(** The shape shared by the [apply] methods: a character map [f] over the
    uppercased text, where [f] never produces a character a-z from a
    character that is not one. *)
Section UppercaseThenMap.

Variable f : ascii -> ascii.
Hypothesis f_not_lower : forall c, JS.isLower c = false -> JS.isLower (f c) = false.

Lemma map_noLowercase (s : string) :
  Spec.noLowercase s -> Spec.noLowercase (JS.join (map f (JS.split s))).
Proof.
  intros Hs. unfold Spec.noLowercase in *. rewrite split_join.
  apply Forall_map. revert Hs. apply Forall_impl. exact f_not_lower.
Qed.

Lemma upper_map_noLowercase (input : string) :
  Spec.noLowercase (JS.join (map f (JS.split (JS.toUpperCase input)))).
Proof. apply map_noLowercase, toUpperCase_noLowercase. Qed.

Lemma upper_map_idempotent (input : string) :
  JS.join (map f (JS.split (JS.toUpperCase (JS.toUpperCase input))))
  = JS.join (map f (JS.split (JS.toUpperCase input))).
Proof. now rewrite toUpperCase_idempotent. Qed.

Lemma charAt_upper_map (input : string) (i : nat) (c : ascii) :
  Spec.charAt input i = Some c ->
  Spec.charAt (JS.join (map f (JS.split (JS.toUpperCase input)))) i
  = Some (f (JS.toUpperChar c)).
Proof.
  unfold Spec.charAt. intros Hc.
  rewrite split_join, split_toUpperCase, map_map, nth_error_map.
  now rewrite Hc.
Qed.

(** A lowercase letter does not come out as itself. *)
Lemma upper_map_changes_lowercase (c : ascii) :
  JS.isLower c = true -> f (JS.toUpperChar c) <> c.
Proof.
  intros Hc Heq.
  pose proof (f_not_lower _ (toUpperChar_not_lower c)) as Hout.
  rewrite Heq in Hout. congruence.
Qed.

End UppercaseThenMap.

Lemma shift_noLowercase (input : string) (k : Z) :
  Spec.noLowercase (ShiftNode.applyKey input k).
Proof. apply upper_map_noLowercase; auto with chars. Qed.

Lemma multiply_noLowercase (input : string) (k : option Z) :
  Spec.noLowercase (MultiplyNode.applyKey input k).
Proof. apply upper_map_noLowercase; auto with chars. Qed.

(** *** The polygon node as the composition of the two nodes *)

Lemma polygon_shift_key (n : nat) :
  JS.orElse (JS.rem (Z.of_nat n) 26) 3 = Spec.polygonShiftKey n.
Proof.
  unfold Spec.polygonShiftKey, JS.orElse, JS.rem.
  now rewrite Z.rem_mod_nonneg by lia.
Qed.

Lemma polygon_apply_stages (this : PolygonNode.t) (input : string) :
  PolygonNode.apply this input =
    let stage1 :=
      ShiftNode.applyKey input (JS.orElse (JS.rem (PolygonNode.numSides this) 26) 3) in
    if PolygonNode.convex this
    then MultiplyNode.applyKey stage1
           (Geometry.indexFloorRem MultiplyNode.validKeys
              (PolygonNode.sideVariance this * 2)%float)
    else stage1.
Proof.
  cbv zeta. unfold PolygonNode.apply.
  destruct (PolygonNode.convex this); [ | reflexivity].
  unfold MultiplyNode.applyKey.
  rewrite (toUpperCase_fixed (ShiftNode.applyKey _ _)) by apply shift_noLowercase.
  reflexivity.
Qed.

(** When [floor(sideVariance * 2)] is a non-negative integer (the variance
    is finite), the key read is a member of the coprime keys. *)
Lemma polygon_multiply_key_valid (f : float) (z : Z) :
  Geometry.floorZ f = Some z -> (0 <= z)%Z ->
  exists k, Geometry.indexFloorRem MultiplyNode.validKeys f = Some k /\
            In k MultiplyNode.validKeys.
Proof.
  intros Hfloor Hz. unfold Geometry.indexFloorRem. rewrite Hfloor.
  now apply fallback_in_validKeys.
Qed.


(** *** Uppercasing before the transformation *)

Lemma not_lower_differs (c c' : ascii) :
  JS.isLower c = true -> JS.isLower c' = false -> c' <> c.
Proof. intros Hc Hc' Heq. subst c'. congruence. Qed.

Lemma validKeys_nonneg (v : Z) : In v MultiplyNode.validKeys -> (0 <= v)%Z.
Proof.
  unfold MultiplyNode.validKeys. simpl.
  intros H; repeat (destruct H as [H | H]; [subst v; lia | ]).
  contradiction.
Qed.

Lemma index_In {A : Type} (l : list A) (i : Z) (v : A) :
  JS.index l i = Some v -> In v l.
Proof.
  unfold JS.index. destruct (i <? 0)%Z; [discriminate | ].
  apply nth_error_In.
Qed.

Lemma indexFloorRem_In {A : Type} (l : list A) (f : float) (v : A) :
  Geometry.indexFloorRem l f = Some v -> In v l.
Proof.
  unfold Geometry.indexFloorRem. destruct (Geometry.floorZ f); [ | discriminate].
  apply index_In.
Qed.

Lemma polygonShiftKey_pos (n : nat) : (0 < Spec.polygonShiftKey n)%Z.
Proof.
  unfold Spec.polygonShiftKey.
  pose proof (Z.mod_pos_bound (Z.of_nat n) 26 ltac:(lia)) as Hb.
  destruct (Z.of_nat n mod 26 =? 0)%Z eqn:H0; [lia | ].
  apply Z.eqb_neq in H0. lia.
Qed.



(** ** Attack estimates *)

Lemma combinations_fold (nodes : list CipherNode) (acc : Z) :
  fold_left
    (fun totalCombinations node =>
       (totalCombinations *
        match type node with
        | shift => 26
        | multiply => 12
        | reverse => 2
        | _ => 2
        end)%Z) nodes acc
  = (acc * Spec.totalCombinations nodes)%Z.
Proof.
  unfold Spec.totalCombinations.
  revert acc. induction nodes as [ | node nodes IH]; intros acc.
  - simpl. lia.
  - cbn [fold_left fold_right]. rewrite IH.
    destruct node; cbn [type Spec.multiplicity]; ring.
Qed.

Lemma ltb_lt (a b : Q) : Attack.ltb a b = true <-> (a < b)%Q.
Proof.
  unfold Attack.ltb. rewrite negb_true_iff.
  destruct (Qle_bool b a) eqn:Hle.
  - apply Qle_bool_iff in Hle. split; [discriminate | ].
    intros Hlt. exfalso. exact (Qlt_not_le _ _ Hlt Hle).
  - split; [intros _ | reflexivity].
    apply Qnot_le_lt. intros Hle'. apply Qle_bool_iff in Hle'. congruence.
Qed.

Lemma ltb_ext (a b a' b' : Q) :
  ((a < b)%Q <-> (a' < b')%Q) -> Attack.ltb a b = Attack.ltb a' b'.
Proof.
  intros Hiff.
  destruct (Attack.ltb a b) eqn:H1; destruct (Attack.ltb a' b') eqn:H2;
    try reflexivity.
  - apply ltb_lt, Hiff, ltb_lt in H1. congruence.
  - apply ltb_lt, Hiff, ltb_lt in H2. congruence.
Qed.

Lemma minutes_under_60 (seconds : Q) :
  Attack.ltb (seconds / 60) 60 = Attack.ltb seconds (60 * 60).
Proof.
  apply ltb_ext. destruct seconds as [n d].
  unfold Qlt, Qdiv, Qmult, Qinv. simpl. lia.
Qed.

Lemma hours_under_24 (seconds : Q) :
  Attack.ltb (seconds / 60 / 60) 24 = Attack.ltb seconds (24 * 60 * 60).
Proof.
  apply ltb_ext. destruct seconds as [n d].
  unfold Qlt, Qdiv, Qmult, Qinv. simpl. lia.
Qed.


(** The buckets in combinations: a lone Shift node is exhausted in under a
    second, and eight of them take more than a day. *)
Example bruteForce_one_shift :
  Attack.bruteForceAttack {| CipherPipeline.nodes := [Shift (ShiftNode.new 3)] |}
  = {| Attack.penalty := 40; Attack.combinations := 26 |}.
Proof. reflexivity. Qed.

Example bruteForce_eight_shifts :
  Attack.penalty
    (Attack.bruteForceAttack
       {| CipherPipeline.nodes := repeat (Shift (ShiftNode.new 3)) 8 |}) = 0%Z.
Proof. reflexivity. Qed.

(** ** Character counts *)

Lemma lookup_increment (t : Frequencies.t) (c c' : ascii) :
  Frequencies.lookup (Frequencies.increment t c) c'
  = if Ascii.eqb c c' then S (Frequencies.lookup t c') else Frequencies.lookup t c'.
Proof.
  induction t as [ | [d n] t IH]; simpl.
  - destruct (Ascii.eqb c c'); reflexivity.
  - destruct (Ascii.eqb d c) eqn:Hdc; simpl.
    + apply Ascii.eqb_eq in Hdc. subst d.
      destruct (Ascii.eqb c c'); reflexivity.
    + rewrite IH. destruct (Ascii.eqb d c') eqn:Hdc'; [ | reflexivity].
      apply Ascii.eqb_eq in Hdc'. subst d. now rewrite Ascii.eqb_sym, Hdc.
Qed.

Lemma keys_increment (t : Frequencies.t) (c c' : ascii) :
  In c' (Frequencies.keys (Frequencies.increment t c)) <-> c' = c \/ In c' (Frequencies.keys t).
Proof.
  induction t as [ | [d n] t IH]; simpl.
  - intuition congruence.
  - destruct (Ascii.eqb d c) eqn:Hdc; simpl.
    + apply Ascii.eqb_eq in Hdc. subst d. intuition congruence.
    + rewrite IH. tauto.
Qed.

Lemma NoDup_increment (t : Frequencies.t) (c : ascii) :
  NoDup (Frequencies.keys t) -> NoDup (Frequencies.keys (Frequencies.increment t c)).
Proof.
  induction t as [ | [d n] t IH]; simpl; intros Hnd.
  - constructor; [intros [] | constructor].
  - inversion Hnd as [ | ? ? Hnotin Hnd']; subst.
    destruct (Ascii.eqb d c) eqn:Hdc; simpl.
    + constructor; assumption.
    + constructor; [ | now apply IH].
      intros Hin. apply keys_increment in Hin. destruct Hin as [-> | Hin].
      * now rewrite Ascii.eqb_refl in Hdc.
      * contradiction.
Qed.

Lemma lookup_not_key (t : Frequencies.t) (c : ascii) :
  ~ In c (Frequencies.keys t) -> Frequencies.lookup t c = 0%nat.
Proof.
  induction t as [ | [d n] t IH]; simpl; intros Hnot; [reflexivity | ].
  destruct (Ascii.eqb d c) eqn:Hdc.
  - apply Ascii.eqb_eq in Hdc. tauto.
  - apply IH. tauto.
Qed.

(** The table after counting [chars] on top of the table [t]. *)
Lemma count_from (chars : list ascii) (t : Frequencies.t) :
  NoDup (Frequencies.keys t) ->
  let t' := fold_left Frequencies.increment chars t in
  NoDup (Frequencies.keys t') /\
  (forall c, Frequencies.lookup t' c = (Frequencies.lookup t c + count_occ ascii_dec chars c)%nat) /\
  (forall c, In c (Frequencies.keys t') <-> In c (Frequencies.keys t) \/ In c chars).
Proof.
  revert t. induction chars as [ | a chars IH]; intros t Hnd; cbv zeta; simpl.
  - split; [assumption | ]. split; [intros c; lia | tauto].
  - destruct (IH (Frequencies.increment t a) (NoDup_increment t a Hnd))
      as [Hnd' [Hlook Hkeys]].
    split; [exact Hnd' | ]. split.
    + intros c. rewrite Hlook, lookup_increment.
      destruct (ascii_dec a c) as [-> | Hne].
      * rewrite Ascii.eqb_refl. lia.
      * apply Ascii.eqb_neq in Hne. rewrite Hne. lia.
    + intros c. rewrite Hkeys, keys_increment. intuition congruence.
Qed.

Lemma count_spec (chars : list ascii) :
  NoDup (Frequencies.keys (Frequencies.count chars)) /\
  (forall c, Frequencies.lookup (Frequencies.count chars) c = count_occ ascii_dec chars c) /\
  (forall c, In c (Frequencies.keys (Frequencies.count chars)) <-> In c chars).
Proof.
  destruct (count_from chars [] (NoDup_nil _)) as [Hnd [Hlook Hkeys]].
  split; [exact Hnd | ]. split.
  - intros c. apply Hlook.
  - intros c. rewrite Hkeys. simpl. tauto.
Qed.

(** *** Sums over the table *)

Lemma sum_Permutation (l l' : list R) : Permutation l l' -> Spec.sum l = Spec.sum l'.
Proof.
  induction 1; simpl; lra.
Qed.

Lemma sum_entries (g : nat -> R) (t : Frequencies.t) :
  NoDup (Frequencies.keys t) ->
  Spec.sum (map (fun entry : ascii * nat => g (snd entry)) t)
  = Spec.sum (map (fun c => g (Frequencies.lookup t c)) (Frequencies.keys t)).
Proof.
  induction t as [ | [d n] t IH]; simpl; intros Hnd; [reflexivity | ].
  inversion Hnd as [ | ? ? Hnotin Hnd']; subst.
  rewrite Ascii.eqb_refl, (IH Hnd'). f_equal.
  f_equal. apply map_ext_in. intros c Hc.
  destruct (Ascii.eqb d c) eqn:Hdc; [ | reflexivity].
  apply Ascii.eqb_eq in Hdc. subst d. contradiction.
Qed.

Lemma fold_left_minus (A : Type) (h : A -> R) (l : list A) (e0 : R) :
  fold_left (fun e a => (e - h a)%R) l e0 = (e0 - Spec.sum (map h l))%R.
Proof.
  revert e0. induction l as [ | a l IH]; intros e0; simpl.
  - lra.
  - rewrite IH. lra.
Qed.

Lemma fold_left_plus (A : Type) (h : A -> R) (l : list A) (e0 : R) :
  fold_left (fun e a => (e + h a)%R) l e0 = (e0 + Spec.sum (map h l))%R.
Proof.
  revert e0. induction l as [ | a l IH]; intros e0; simpl.
  - lra.
  - rewrite IH. lra.
Qed.

Lemma length_split (s : string) : List.length (JS.split s) = String.length s.
Proof. induction s as [ | c s IH]; simpl; congruence. Qed.

(** [calculateEntropy] is the Shannon entropy of the text. *)
Lemma calculateEntropy_shannon (text : string) :
  Evaluator.calculateEntropy text = Spec.shannon text.
Proof.
  unfold Evaluator.calculateEntropy, Spec.shannon. cbv zeta.
  destruct (count_spec (JS.split text)) as [Hnd [Hlook Hkeys]].
  rewrite fold_left_minus, Rminus_0_l. f_equal.
  rewrite (sum_entries
             (fun n => (INR n / INR (String.length text)
                        * Evaluator.log2 (INR n / INR (String.length text)))%R)
             _ Hnd).
  transitivity
    (Spec.sum (map (fun c =>
                      (INR (Spec.occurrences text c) / INR (String.length text)
                       * Evaluator.log2 (INR (Spec.occurrences text c)
                                         / INR (String.length text)))%R)
                   (Frequencies.keys (Frequencies.count (JS.split text))))).
  - f_equal. apply map_ext. intros c. now rewrite Hlook.
  - apply sum_Permutation, Permutation_map.
    apply NoDup_Permutation; [exact Hnd | apply NoDup_nodup | ].
    intros c. rewrite Hkeys. symmetry. apply nodup_In.
Qed.

(** ** The score *)

Lemma fold_left_map_index (A B : Type) (f : A -> B -> A) (g : nat -> B)
      (l : list nat) (a : A) :
  fold_left f (map g l) a = fold_left (fun a i => f a (g i)) l a.
Proof.
  revert a. induction l as [ | i l IH]; intros a; simpl; [reflexivity | apply IH].
Qed.

(** The loop of [calculateDiffusion] counts the positions that differ. *)
Lemma changes_count (l1 l2 : list ascii) (acc : nat) :
  List.length l1 = List.length l2 ->
  fold_left
    (fun changes i =>
       if negb (Ascii.eqb (nth i l1 Ascii.zero) (nth i l2 Ascii.zero))
       then S changes else changes)
    (seq 0 (List.length l1)) acc
  = (acc + List.length
             (filter (fun ab : ascii * ascii => negb (Ascii.eqb (fst ab) (snd ab)))
                     (combine l1 l2)))%nat.
Proof.
  revert l2 acc. induction l1 as [ | a l1 IH]; intros [ | b l2] acc Hlen;
    try discriminate Hlen; simpl.
  - lia.
  - injection Hlen as Hlen. rewrite <- seq_shift.
    rewrite (fold_left_map_index nat nat
               (fun changes i =>
                  if negb (Ascii.eqb (nth i (a :: l1) Ascii.zero)
                                     (nth i (b :: l2) Ascii.zero))
                  then S changes else changes) S).
    simpl. rewrite (IH l2 _ Hlen).
    destruct (Ascii.eqb a b); simpl; lia.
Qed.

Lemma calculateDiffusion_pct (plaintext ciphertext : string) :
  Evaluator.calculateDiffusion plaintext ciphertext
  = Spec.pctChanged plaintext ciphertext.
Proof.
  unfold Evaluator.calculateDiffusion, Spec.pctChanged.
  destruct (String.length plaintext =? String.length ciphertext)%nat eqn:Hlen;
    simpl; [ | reflexivity].
  apply Nat.eqb_eq in Hlen.
  rewrite <- (length_split plaintext) at 1.
  rewrite changes_count by (now rewrite !length_split).
  reflexivity.
Qed.

Lemma log2_2 : Evaluator.log2 2 = 1%R.
Proof.
  unfold Evaluator.log2. pose proof ln_lt_2 as Hln.
  field. lra.
Qed.

Lemma estimateKeySpace_from (nodes : list CipherNode) (bits : R) :
  fold_left
    (fun bits node =>
       match type node with
       | shift => bits + Evaluator.log2 26
       | multiply => bits + Evaluator.log2 12
       | reverse => bits + 1
       | _ => bits + 1
       end%R) nodes bits
  = (bits + Spec.keySpaceBits nodes)%R.
Proof.
  unfold Spec.keySpaceBits, Spec.sum.
  revert bits. induction nodes as [ | node nodes IH]; intros bits.
  - simpl. lra.
  - cbn [fold_left map fold_right]. rewrite IH.
    destruct node; cbn [type Spec.multiplicity]; rewrite ?log2_2; lra.
Qed.

Lemma estimateKeySpace_bits (pipeline : CipherPipeline.t) :
  Evaluator.estimateKeySpace pipeline
  = Spec.keySpaceBits (CipherPipeline.nodes pipeline).
Proof.
  unfold Evaluator.estimateKeySpace. rewrite estimateKeySpace_from. lra.
Qed.

Lemma isIdentical_dec (plaintext ciphertext : string) :
  Evaluator.isIdentical plaintext ciphertext
  = if string_dec ciphertext plaintext then true else false.
Proof.
  unfold Evaluator.isIdentical.
  destruct (string_dec ciphertext plaintext) as [-> | Hne].
  - apply String.eqb_refl.
  - apply String.eqb_neq. congruence.
Qed.

Lemma isSimpleReversal_dec (plaintext ciphertext : string) :
  Evaluator.isSimpleReversal plaintext ciphertext
  = if string_dec ciphertext (Spec.reversal plaintext) then true else false.
Proof.
  unfold Evaluator.isSimpleReversal. cbv zeta. fold (Spec.reversal plaintext).
  destruct (string_dec ciphertext (Spec.reversal plaintext)) as [-> | Hne].
  - apply String.eqb_refl.
  - apply String.eqb_neq. congruence.
Qed.

Lemma isEmpty_nodes (pipeline : CipherPipeline.t) :
  CipherPipeline.isEmpty pipeline
  = match CipherPipeline.nodes pipeline with [] => true | _ :: _ => false end.
Proof.
  unfold CipherPipeline.isEmpty. now destruct (CipherPipeline.nodes pipeline).
Qed.



(** ** Sample runs *)

Example shift_sample : ShiftNode.apply (ShiftNode.new 3) "Hello, World!" = "KHOOR, ZRUOG!"%string.
Proof. reflexivity. Qed.

Example shift_inverse_sample :
  CipherPipeline.encrypt
    {| CipherPipeline.nodes := [Shift (ShiftNode.new 3); Shift (ShiftNode.new 23)] |} "A"
  = "A"%string.
Proof. reflexivity. Qed.

Example multiply_sample : MultiplyNode.apply (MultiplyNode.new 5) "hello" = "JUDDS"%string.
Proof. reflexivity. Qed.

Example polygon_sample :
  PolygonNode.apply (PolygonNode.new Examples.flatTriangle) "Hello" = "UBCCV"%string.
Proof. vm_compute. reflexivity. Qed.


(** * Further properties of the sources *)

(** ** Nodes as character maps *)

Lemma length_join (l : list ascii) : String.length (JS.join l) = List.length l.
Proof. induction l as [ | c l IH]; simpl; congruence. Qed.

Lemma fromCharCode_charCodeAt (c : ascii) : JS.fromCharCode (JS.charCodeAt c) = c.
Proof.
  unfold JS.fromCharCode, JS.charCodeAt.
  pose proof (N_ascii_bounded c) as Hb.
  rewrite Z.mod_small by lia. rewrite N2Z.id. apply ascii_N_embedding.
Qed.

Lemma upper_map_as_map (f : ascii -> ascii) (s : string) :
  JS.join (map f (JS.split (JS.toUpperCase s)))
  = JS.join (map (fun c => f (JS.toUpperChar c)) (JS.split s)).
Proof. now rewrite split_toUpperCase, map_map. Qed.

(** Every node but Reverse maps the characters of its input one by one. *)
Lemma applyNode_charMap (node : CipherNode) (input : string) :
  type node <> reverse ->
  applyNode node input = JS.join (map (Spec.charMap node) (JS.split input)).
Proof.
  intros Hnode.
  destruct node as [n | | n | n]; [ | exfalso; now apply Hnode | | ].
  - apply upper_map_as_map.
  - apply (upper_map_as_map (MultiplyNode.multiplyChar (MultiplyNode.key n))).
  - cbn [applyNode Spec.charMap]. rewrite polygon_apply_stages. cbv zeta.
    destruct (PolygonNode.convex n) eqn:Hconvex.
    + unfold MultiplyNode.applyKey, ShiftNode.applyKey.
      rewrite !split_toUpperCase, split_join, !map_map. f_equal.
      apply map_ext. intros c. cbn [Spec.charMap]. rewrite Hconvex.
      rewrite (toUpperChar_fixed (ShiftNode.shiftChar _ _)) by auto with chars.
      reflexivity.
    + unfold ShiftNode.applyKey. rewrite upper_map_as_map. f_equal.
      apply map_ext. intros c. cbn [Spec.charMap]. now rewrite Hconvex.
Qed.

Lemma applyNode_length (node : CipherNode) (input : string) :
  String.length (applyNode node input) = String.length input.
Proof.
  destruct (type node) eqn:Htype.
  2: { destruct node; try discriminate Htype. cbn [applyNode].
       unfold ReverseNode.apply. now rewrite length_join, length_rev, length_split. }
  all: rewrite applyNode_charMap by congruence;
    now rewrite length_join, length_map, length_split.
Qed.

(** X1: a pipeline applies its nodes in insertion order: the empty and the
    cleared pipeline return the text as it is, and the pipeline extended by
    a node applies that node to the result of the pipeline before. *)
Theorem encrypt_in_insertion_order (pipeline : CipherPipeline.t)
        (node : CipherNode) (input : string) :
  CipherPipeline.encrypt CipherPipeline.new input = input /\
  CipherPipeline.encrypt (CipherPipeline.clear pipeline) input = input /\
  CipherPipeline.encrypt (CipherPipeline.addNode pipeline node) input
  = applyNode node (CipherPipeline.encrypt pipeline input).
Proof.
  split; [reflexivity | ]. split; [reflexivity | ].
  unfold CipherPipeline.encrypt, CipherPipeline.addNode. cbn [CipherPipeline.nodes].
  now rewrite fold_left_app.
Qed.


(** X3: Reverse commutes with every node: reversing before a node gives the
    same text as reversing after it. *)
Theorem reverse_commutes_with_nodes (node : CipherNode) (input : string) :
  applyNode node (ReverseNode.apply input)
  = ReverseNode.apply (applyNode node input).
Proof.
  destruct (type node) eqn:Htype.
  2: { destruct node; try discriminate Htype. reflexivity. }
  all: rewrite !applyNode_charMap by congruence;
    unfold ReverseNode.apply; now rewrite !split_join, map_rev.
Qed.



(** ** Shift: composition, period, decryption *)

Lemma shiftChar_nonletter (k : Z) (c : ascii) :
  JS.testAZ c = false -> ShiftNode.shiftChar k c = c.
Proof. intros Hc. unfold ShiftNode.shiftChar. now rewrite Hc. Qed.

Lemma shiftChar_mod (k : Z) (c : ascii) :
  (0 <= k)%Z -> JS.testAZ c = true ->
  ShiftNode.shiftChar k c
  = JS.fromCharCode ((JS.charCodeAt c - 65 + k) mod 26 + 65).
Proof.
  intros Hk Hc. unfold ShiftNode.shiftChar, JS.rem. rewrite Hc. cbn [negb].
  apply testAZ_true in Hc. now rewrite Z.rem_mod_nonneg by lia.
Qed.

Lemma shiftChar_compose (k1 k2 : Z) (c : ascii) :
  (0 <= k1)%Z -> (0 <= k2)%Z ->
  ShiftNode.shiftChar k2 (ShiftNode.shiftChar k1 c) = ShiftNode.shiftChar (k1 + k2) c.
Proof.
  intros H1 H2. destruct (JS.testAZ c) eqn:Hc.
  - pose proof (shiftChar_letter k1 c H1 Hc) as Hc1.
    rewrite (shiftChar_mod k2 _ H2 Hc1).
    rewrite (shiftChar_mod k1 c H1 Hc), (shiftChar_mod (k1 + k2) c) by (lia || assumption).
    apply testAZ_true in Hc.
    pose proof (Z.mod_pos_bound (JS.charCodeAt c - 65 + k1) 26 ltac:(lia)) as Hb.
    rewrite charCodeAt_fromCharCode by lia.
    f_equal. f_equal.
    replace ((JS.charCodeAt c - 65 + k1) mod 26 + 65 - 65 + k2)%Z
      with ((JS.charCodeAt c - 65 + k1) mod 26 + k2)%Z by lia.
    rewrite Zplus_mod_idemp_l. f_equal. lia.
  - now rewrite !(fun k => shiftChar_nonletter k c Hc).
Qed.

Lemma shiftChar_period (k : Z) (c : ascii) :
  (0 <= k)%Z -> ShiftNode.shiftChar k c = ShiftNode.shiftChar (k mod 26) c.
Proof.
  intros Hk. destruct (JS.testAZ c) eqn:Hc.
  - pose proof (Z.mod_pos_bound k 26 ltac:(lia)) as Hb.
    rewrite (shiftChar_mod k c Hk Hc), (shiftChar_mod (k mod 26) c) by (lia || assumption).
    now rewrite Zplus_mod_idemp_r.
  - now rewrite !(fun k => shiftChar_nonletter k c Hc).
Qed.

Lemma shiftChar_zero (c : ascii) : ShiftNode.shiftChar 0 c = c.
Proof.
  destruct (JS.testAZ c) eqn:Hc.
  - rewrite (shiftChar_mod 0 c ltac:(lia) Hc). apply testAZ_true in Hc.
    rewrite Z.add_0_r, Z.mod_small by lia.
    replace (JS.charCodeAt c - 65 + 65)%Z with (JS.charCodeAt c) by lia.
    apply fromCharCode_charCodeAt.
  - now apply shiftChar_nonletter.
Qed.

Lemma split_shift (s : string) (k : Z) :
  JS.split (ShiftNode.applyKey s k)
  = map (ShiftNode.shiftChar k) (JS.split (JS.toUpperCase s)).
Proof. unfold ShiftNode.applyKey. apply split_join. Qed.

Lemma shift_applyKey_compose (input : string) (k1 k2 : Z) :
  (0 <= k1)%Z -> (0 <= k2)%Z ->
  ShiftNode.applyKey (ShiftNode.applyKey input k1) k2
  = ShiftNode.applyKey input (k1 + k2).
Proof.
  intros H1 H2. unfold ShiftNode.applyKey at 1.
  rewrite (toUpperCase_fixed (ShiftNode.applyKey input k1)) by apply shift_noLowercase.
  rewrite split_shift, map_map. unfold ShiftNode.applyKey. f_equal.
  apply map_ext. intros c. now apply shiftChar_compose.
Qed.

Lemma shift_applyKey_period (input : string) (k : Z) :
  (0 <= k)%Z -> ShiftNode.applyKey input k = ShiftNode.applyKey input (k mod 26).
Proof.
  intros Hk. unfold ShiftNode.applyKey. f_equal. apply map_ext. intros c.
  now apply shiftChar_period.
Qed.

Lemma shift_applyKey_zero (input : string) :
  ShiftNode.applyKey input 0 = JS.toUpperCase input.
Proof.
  unfold ShiftNode.applyKey.
  rewrite (map_ext _ (fun c => c) shiftChar_zero), map_id. apply join_split.
Qed.







Lemma shiftChar_changes (k : Z) (c : ascii) :
  (0 <= k)%Z -> (k mod 26 <> 0)%Z -> JS.testAZ c = true ->
  ShiftNode.shiftChar k c <> c.
Proof.
  intros Hk Hne Haz Heq. pose proof (f_equal JS.charCodeAt Heq) as Hcode.
  rewrite (shiftChar_mod k c Hk Haz) in Hcode. apply testAZ_true in Haz.
  pose proof (Z.mod_pos_bound (JS.charCodeAt c - 65 + k) 26 ltac:(lia)) as Hb.
  rewrite charCodeAt_fromCharCode in Hcode by lia.
  assert (Hmod : ((JS.charCodeAt c - 65 + k) mod 26 = JS.charCodeAt c - 65)%Z) by lia.
  rewrite <- (Z.mod_small (JS.charCodeAt c - 65) 26) in Hmod at 2 by lia.
  apply Hne.
  replace k with ((JS.charCodeAt c - 65 + k) - (JS.charCodeAt c - 65))%Z by lia.
  rewrite Zminus_mod, Hmod, Z.sub_diag. reflexivity.
Qed.



(** ** Multiply: stored keys, decryption, fixed letters *)

Lemma multiplyChar_nonletter (k : option Z) (c : ascii) :
  JS.testAZ c = false -> MultiplyNode.multiplyChar k c = c.
Proof. intros Hc. unfold MultiplyNode.multiplyChar. now rewrite Hc. Qed.

Lemma multiplyChar_mod (k : Z) (c : ascii) :
  (0 <= k)%Z -> JS.testAZ c = true ->
  MultiplyNode.multiplyChar (Some k) c
  = JS.fromCharCode ((k * (JS.charCodeAt c - 65)) mod 26 + 65).
Proof.
  intros Hk Hc. unfold MultiplyNode.multiplyChar, JS.rem. rewrite Hc. cbn [negb].
  apply testAZ_true in Hc. now rewrite Z.rem_mod_nonneg by nia.
Qed.

Lemma multiplyChar_compose (k1 k2 : Z) (c : ascii) :
  (0 <= k1)%Z -> (0 <= k2)%Z ->
  MultiplyNode.multiplyChar (Some k2) (MultiplyNode.multiplyChar (Some k1) c)
  = MultiplyNode.multiplyChar (Some (k1 * k2)%Z) c.
Proof.
  intros H1 H2. destruct (JS.testAZ c) eqn:Hc.
  - pose proof (multiplyChar_letter k1 c H1 Hc) as Hc1.
    rewrite (multiplyChar_mod k2 _ H2 Hc1).
    rewrite (multiplyChar_mod k1 c H1 Hc), (multiplyChar_mod (k1 * k2) c)
      by (nia || assumption).
    apply testAZ_true in Hc.
    pose proof (Z.mod_pos_bound (k1 * (JS.charCodeAt c - 65)) 26 ltac:(lia)) as Hb.
    rewrite charCodeAt_fromCharCode by lia.
    f_equal. f_equal.
    replace ((k1 * (JS.charCodeAt c - 65)) mod 26 + 65 - 65)%Z
      with ((k1 * (JS.charCodeAt c - 65)) mod 26)%Z by lia.
    rewrite Z.mul_mod_idemp_r by lia. f_equal. ring.
  - now rewrite !(fun k => multiplyChar_nonletter k c Hc).
Qed.

Lemma multiplyChar_residue_one (k : Z) (c : ascii) :
  (0 <= k)%Z -> (k mod 26 = 1)%Z -> MultiplyNode.multiplyChar (Some k) c = c.
Proof.
  intros Hk H1. destruct (JS.testAZ c) eqn:Hc.
  - rewrite (multiplyChar_mod k c Hk Hc). apply testAZ_true in Hc.
    rewrite <- Z.mul_mod_idemp_l, H1, Z.mul_1_l, Z.mod_small by lia.
    replace (JS.charCodeAt c - 65 + 65)%Z with (JS.charCodeAt c) by lia.
    apply fromCharCode_charCodeAt.
  - now apply multiplyChar_nonletter.
Qed.

Lemma split_multiply (s : string) (k : option Z) :
  JS.split (MultiplyNode.applyKey s k)
  = map (MultiplyNode.multiplyChar k) (JS.split (JS.toUpperCase s)).
Proof. unfold MultiplyNode.applyKey. apply split_join. Qed.

Lemma multiply_applyKey_round_trip (input : string) (k1 k2 : Z) :
  (0 <= k1)%Z -> (0 <= k2)%Z -> ((k1 * k2) mod 26 = 1)%Z ->
  MultiplyNode.applyKey (MultiplyNode.applyKey input (Some k1)) (Some k2)
  = JS.toUpperCase input.
Proof.
  intros H1 H2 Hinv. unfold MultiplyNode.applyKey at 1.
  rewrite (toUpperCase_fixed (MultiplyNode.applyKey input (Some k1)))
    by apply multiply_noLowercase.
  rewrite split_multiply, map_map.
  rewrite (map_ext _ (fun c => c)), map_id; [apply join_split | ].
  intros c. rewrite multiplyChar_compose by assumption.
  apply multiplyChar_residue_one; [nia | exact Hinv].
Qed.

(** The key stored for a non-negative key, with its residue. *)
Lemma stored_key_residue (k : Z) :
  (0 <= k)%Z ->
  exists v, MultiplyNode.key (MultiplyNode.new k) = Some v /\ (0 <= v)%Z /\
            In (v mod 26)%Z MultiplyNode.validKeys.
Proof.
  intros Hk. unfold MultiplyNode.new, MultiplyNode.validateKey.
  destruct (JS.includes MultiplyNode.validKeys (JS.rem k 26)) eqn:Hinc;
    cbn [negb MultiplyNode.key].
  - exists k. split; [reflexivity | ]. split; [exact Hk | ].
    apply includes_In in Hinc. unfold JS.rem in Hinc.
    now rewrite Z.rem_mod_nonneg in Hinc by lia.
  - destruct (fallback_in_validKeys k Hk) as [v [Hv Hin]].
    exists v. split; [exact Hv | ].
    pose proof (validKeys_nonneg v Hin) as Hv0. split; [exact Hv0 | ].
    assert (Hlt : (v < 26)%Z).
    { revert Hin. unfold MultiplyNode.validKeys. simpl.
      intros H; repeat (destruct H as [H | H]; [subst v; lia | ]). contradiction. }
    now rewrite Z.mod_small by lia.
Qed.

Lemma new_valid_key (k : Z) :
  In k MultiplyNode.validKeys -> MultiplyNode.key (MultiplyNode.new k) = Some k.
Proof.
  unfold MultiplyNode.validKeys. simpl.
  intros H; repeat (destruct H as [H | H]; [subst k; reflexivity | ]).
  contradiction.
Qed.

Lemma validKeys_inverse (r : Z) :
  In r MultiplyNode.validKeys ->
  exists k', In k' MultiplyNode.validKeys /\ ((r * k') mod 26 = 1)%Z.
Proof.
  unfold MultiplyNode.validKeys. simpl. intros H.
  destruct H as [<- | H]; [exists 1%Z; split; [tauto | reflexivity] | ].
  destruct H as [<- | H]; [exists 9%Z; split; [tauto | reflexivity] | ].
  destruct H as [<- | H]; [exists 21%Z; split; [tauto | reflexivity] | ].
  destruct H as [<- | H]; [exists 15%Z; split; [tauto | reflexivity] | ].
  destruct H as [<- | H]; [exists 3%Z; split; [tauto | reflexivity] | ].
  destruct H as [<- | H]; [exists 19%Z; split; [tauto | reflexivity] | ].
  destruct H as [<- | H]; [exists 7%Z; split; [tauto | reflexivity] | ].
  destruct H as [<- | H]; [exists 23%Z; split; [tauto | reflexivity] | ].
  destruct H as [<- | H]; [exists 11%Z; split; [tauto | reflexivity] | ].
  destruct H as [<- | H]; [exists 5%Z; split; [tauto | reflexivity] | ].
  destruct H as [<- | H]; [exists 17%Z; split; [tauto | reflexivity] | ].
  destruct H as [<- | H]; [exists 25%Z; split; [tauto | reflexivity] | ].
  contradiction.
Qed.





(** X11: for a negative key the constructor of Multiply stores 1 when the
    key is a multiple of 12 and leaves the key undefined otherwise; with an
    undefined key every letter of the text becomes the character of
    code 0. *)
Theorem multiply_negative_key (k : Z) :
  (k < 0)%Z ->
  MultiplyNode.key (MultiplyNode.new k)
  = (if (Z.rem k 12 =? 0)%Z then Some 1%Z else None) /\
  (Z.rem k 12 <> 0%Z ->
   forall input i c,
     Spec.charAt (JS.toUpperCase input) i = Some c -> JS.testAZ c = true ->
     Spec.charAt (MultiplyNode.apply (MultiplyNode.new k) input) i
     = Some JS.fromCharCodeNaN).
Proof.
  intros Hk.
  assert (Hkey : MultiplyNode.key (MultiplyNode.new k)
                 = (if (Z.rem k 12 =? 0)%Z then Some 1%Z else None)).
  { unfold MultiplyNode.new, MultiplyNode.validateKey.
    destruct (JS.includes MultiplyNode.validKeys (JS.rem k 26)) eqn:Hinc.
    - apply includes_In in Hinc. unfold JS.rem in Hinc.
      pose proof (Z.rem_bound_pos_neg k 26 ltac:(lia) ltac:(lia)) as Hb.
      revert Hinc. unfold MultiplyNode.validKeys. simpl.
      intros H; repeat (destruct H as [H | H]; [lia | ]). contradiction.
    - cbn [negb MultiplyNode.key]. unfold JS.index, JS.rem.
      change (Z.of_nat (List.length MultiplyNode.validKeys)) with 12%Z.
      pose proof (Z.rem_bound_pos_neg k 12 ltac:(lia) ltac:(lia)) as Hb.
      destruct (Z.rem k 12 =? 0)%Z eqn:H0.
      + apply Z.eqb_eq in H0. rewrite H0. reflexivity.
      + apply Z.eqb_neq in H0.
        destruct (Z.rem k 12 <? 0)%Z eqn:Hneg; [reflexivity | ].
        apply Z.ltb_ge in Hneg. lia. }
  split; [exact Hkey | ].
  intros Hne input i c Hc Haz. unfold MultiplyNode.apply. rewrite Hkey.
  apply Z.eqb_neq in Hne. rewrite Hne.
  unfold Spec.charAt in *. rewrite split_multiply, nth_error_map, Hc.
  cbn [option_map]. unfold MultiplyNode.multiplyChar. now rewrite Haz.
Qed.

Lemma multiply_negative_key_witness :
  (-5 < 0)%Z /\ MultiplyNode.key (MultiplyNode.new (-5)) = None.
Proof.
  split; [lia | ].
  destruct (multiply_negative_key (-5) ltac:(lia)) as [Hkey _]. exact Hkey.
Defined.


(** ** Removal and insertion of nodes *)

Lemma splice_one_negative {A : Type} (l : list A) (start : Z) :
  (start < 0)%Z ->
  JS.splice l start 1
  = JS.splice l (Z.max (Z.of_nat (List.length l) + start) 0) 1.
Proof.
  intros Hneg. unfold JS.splice.
  destruct (start <? 0)%Z eqn:H1; [ | apply Z.ltb_ge in H1; lia].
  destruct (Z.max (Z.of_nat (List.length l) + start) 0 <? 0)%Z eqn:H2;
    [apply Z.ltb_lt in H2; lia | ].
  now rewrite (Z.min_l (Z.max _ 0) (Z.of_nat (List.length l))) by lia.
Qed.

Lemma splice_one_in_range {A : Type} (l : list A) (i : nat) :
  (i < List.length l)%nat ->
  JS.splice l (Z.of_nat i) 1 = firstn i l ++ skipn (S i) l.
Proof.
  intros Hi. unfold JS.splice.
  destruct (Z.of_nat i <? 0)%Z eqn:H1; [apply Z.ltb_lt in H1; lia | ].
  rewrite Z.min_l by lia. rewrite (Z.max_l 1 0) by lia.
  rewrite Z.min_l by lia. rewrite Nat2Z.id.
  replace (Z.to_nat (Z.of_nat i + 1)) with (S i) by lia. reflexivity.
Qed.

(** X12: [removeNode] with an index in range removes exactly the node at
    that index; with a negative index it counts from the end of the list,
    and from the first node when the index reaches before it, so that on a
    pipeline that is not empty a negative index always removes a node. *)
Theorem removeNode_by_index (pipeline : CipherPipeline.t) :
  (forall i : nat,
      (i < List.length (CipherPipeline.nodes pipeline))%nat ->
      CipherPipeline.nodes (CipherPipeline.removeNode pipeline (Z.of_nat i))
      = firstn i (CipherPipeline.nodes pipeline)
        ++ skipn (S i) (CipherPipeline.nodes pipeline)) /\
  (forall index : Z,
      (index < 0)%Z ->
      CipherPipeline.removeNode pipeline index
      = CipherPipeline.removeNode pipeline
          (Z.max (CipherPipeline.length pipeline + index) 0) /\
      (CipherPipeline.nodes pipeline <> [] ->
       S (List.length (CipherPipeline.nodes (CipherPipeline.removeNode pipeline index)))
       = List.length (CipherPipeline.nodes pipeline))).
Proof.
  split.
  - intros i Hi. cbn [CipherPipeline.removeNode CipherPipeline.nodes].
    now apply splice_one_in_range.
  - intros index Hneg.
    assert (Heq : CipherPipeline.removeNode pipeline index
                  = CipherPipeline.removeNode pipeline
                      (Z.max (CipherPipeline.length pipeline + index) 0)).
    { unfold CipherPipeline.removeNode, CipherPipeline.length. f_equal.
      now apply splice_one_negative. }
    split; [exact Heq | ].
    intros Hne. rewrite Heq. unfold CipherPipeline.length.
    set (l := CipherPipeline.nodes pipeline) in *.
    assert (Hlen : (0 < List.length l)%nat) by (destruct l; [congruence | simpl; lia]).
    set (j := Z.to_nat (Z.max (Z.of_nat (List.length l) + index) 0)).
    assert (Hj : (j < List.length l)%nat) by (subst j; lia).
    replace (Z.max (Z.of_nat (List.length l) + index) 0) with (Z.of_nat j)
      by (subst j; lia).
    cbn [CipherPipeline.removeNode CipherPipeline.nodes]. fold l.
    rewrite splice_one_in_range by exact Hj.
    rewrite length_app, length_firstn, length_skipn. lia.
Qed.

Lemma removeNode_by_index_witness :
  (-1 < 0)%Z /\
  CipherPipeline.removeNode Examples.twoNodes (-1)
  = CipherPipeline.removeNode Examples.twoNodes
      (Z.max (CipherPipeline.length Examples.twoNodes + -1) 0).
Proof.
  split; [lia | ].
  destruct (removeNode_by_index Examples.twoNodes) as [_ Hneg].
  destruct (Hneg (-1)%Z ltac:(lia)) as [Heq _]. exact Heq.
Defined.

(** X13: removing the last node undoes the addition of a node, through
    [removeLastNode] and through the guarded removal at the last index; on
    an empty pipeline [removeLastNode] does nothing. *)
Theorem add_then_remove_last (pipeline : CipherPipeline.t) (node : CipherNode) :
  Game.removeLastNode (CipherPipeline.addNode pipeline node) = pipeline /\
  Game.removeNodeByIndex (CipherPipeline.addNode pipeline node)
                         (CipherPipeline.length pipeline) = pipeline /\
  Game.removeLastNode CipherPipeline.new = CipherPipeline.new.
Proof.
  destruct pipeline as [nodes].
  assert (Hrm : CipherPipeline.removeNode
                  (CipherPipeline.addNode {| CipherPipeline.nodes := nodes |} node)
                  (Z.of_nat (List.length nodes))
                = {| CipherPipeline.nodes := nodes |}).
  { unfold CipherPipeline.removeNode, CipherPipeline.addNode.
    cbn [CipherPipeline.nodes]. f_equal.
    rewrite splice_one_in_range by (rewrite length_app; simpl; lia).
    rewrite firstn_app, Nat.sub_diag, firstn_all. cbn [firstn].
    rewrite skipn_all2 by (rewrite length_app; simpl; lia).
    now rewrite !app_nil_r. }
  split; [ | split; [ | reflexivity]].
  - unfold Game.removeLastNode, CipherPipeline.length.
    cbn [CipherPipeline.addNode CipherPipeline.nodes].
    rewrite length_app. cbn [List.length].
    destruct (0 <? Z.of_nat (List.length nodes + 1))%Z eqn:Hpos;
      [ | apply Z.ltb_ge in Hpos; lia].
    replace (Z.of_nat (List.length nodes + 1) - 1)%Z
      with (Z.of_nat (List.length nodes)) by lia.
    exact Hrm.
  - unfold Game.removeNodeByIndex, CipherPipeline.length.
    cbn [CipherPipeline.addNode CipherPipeline.nodes].
    rewrite length_app. cbn [List.length].
    destruct (0 <=? Z.of_nat (List.length nodes))%Z eqn:H0;
      [ | apply Z.leb_gt in H0; lia].
    destruct (Z.of_nat (List.length nodes) <? Z.of_nat (List.length nodes + 1))%Z eqn:H1;
      [ | apply Z.ltb_ge in H1; lia].
    exact Hrm.
Qed.

(** X14: through [addNode] of the game a key of 0, like a missing key, is
    replaced by the default (3 for Shift, 5 for Multiply), so that the
    Shift node added never has the key 0; an unknown node type adds
    nothing. *)
Theorem game_addNode_keys (pipeline : CipherPipeline.t) (key : option Z) :
  (exists k,
      k <> 0%Z /\ (key = Some 0%Z \/ key = None -> k = 3%Z) /\
      (forall k0, key = Some k0 -> k0 <> 0%Z -> k = k0) /\
      CipherPipeline.nodes (Game.addNode pipeline "shift" key)
      = CipherPipeline.nodes pipeline ++ [Shift (ShiftNode.new k)]) /\
  (key = Some 0%Z \/ key = None ->
   CipherPipeline.nodes (Game.addNode pipeline "multiply" key)
   = CipherPipeline.nodes pipeline ++ [Multiply (MultiplyNode.new 5)]) /\
  (forall nodeType,
      nodeType <> "shift"%string -> nodeType <> "reverse"%string ->
      nodeType <> "multiply"%string ->
      Game.addNode pipeline nodeType key = pipeline).
Proof.
  split; [ | split].
  - exists (Game.keyOr key 3). split; [ | split; [ | split]].
    + unfold Game.keyOr, JS.orElse. destruct key as [k0 | ]; [ | discriminate].
      destruct (k0 =? 0)%Z eqn:H0; [discriminate | now apply Z.eqb_neq in H0].
    + intros [-> | ->]; reflexivity.
    + intros k0 -> Hne. unfold Game.keyOr, JS.orElse.
      apply Z.eqb_neq in Hne. now rewrite Hne.
    + reflexivity.
  - intros [-> | ->]; reflexivity.
  - intros nodeType H1 H2 H3. unfold Game.addNode.
    apply String.eqb_neq in H1, H2, H3. now rewrite H1, H2, H3.
Qed.

Lemma game_addNode_keys_witness :
  "polygon"%string <> "shift"%string /\ "polygon"%string <> "reverse"%string /\
  "polygon"%string <> "multiply"%string /\
  Game.addNode Examples.twoNodes "polygon" (Some 4%Z) = Examples.twoNodes.
Proof.
  split; [discriminate | ]. split; [discriminate | ]. split; [discriminate | ].
  destruct (game_addNode_keys Examples.twoNodes (Some 4%Z)) as [_ [_ Hunknown]].
  apply Hunknown; discriminate.
Defined.

(** ** The polygon node and the validity of polygons *)

Lemma polygonShiftKey_range (n : nat) :
  (1 <= Spec.polygonShiftKey n <= 25)%Z /\ (Spec.polygonShiftKey n mod 26 <> 0)%Z.
Proof.
  unfold Spec.polygonShiftKey.
  pose proof (Z.mod_pos_bound (Z.of_nat n) 26 ltac:(lia)) as Hb.
  destruct (Z.of_nat n mod 26 =? 0)%Z eqn:H0.
  - split; [lia | discriminate].
  - apply Z.eqb_neq in H0. split; [lia | ]. rewrite Z.mod_small by lia. exact H0.
Qed.

(** X15: for every vertex list the key of the polygon node lies between 1
    and 25, and a polygon that is not convex (fewer than three vertices
    included) changes every letter of the uppercased text into another
    uppercase letter. *)
Theorem polygon_key_range_and_effect (vertices : list Geometry.Point)
        (input : string) :
  let node := PolygonNode.new vertices in
  (1 <= PolygonNode.key node <= 25)%Z /\
  (Geometry.isConvex vertices = false ->
   forall i c,
     Spec.charAt (JS.toUpperCase input) i = Some c -> JS.testAZ c = true ->
     exists c',
       Spec.charAt (PolygonNode.apply node input) i = Some c' /\
       JS.testAZ c' = true /\ c' <> c).
Proof.
  cbv zeta. destruct (polygonShiftKey_range (List.length vertices)) as [Hrange Hne].
  split.
  - cbn [PolygonNode.new PolygonNode.key]. now rewrite polygon_shift_key.
  - intros Hconcave i c Hc Haz. rewrite polygon_apply_stages. cbv zeta.
    cbn [PolygonNode.new PolygonNode.convex PolygonNode.numSides].
    rewrite Hconcave, polygon_shift_key.
    exists (ShiftNode.shiftChar (Spec.polygonShiftKey (List.length vertices)) c).
    split; [ | split].
    + unfold Spec.charAt in *. rewrite split_shift, nth_error_map. now rewrite Hc.
    + apply shiftChar_letter; [lia | exact Haz].
    + apply shiftChar_changes; [lia | exact Hne | exact Haz].
Qed.

Lemma polygon_key_range_and_effect_witness :
  Geometry.isConvex [] = false /\
  Spec.charAt (JS.toUpperCase "ok") 0 = Some "O"%char /\ JS.testAZ "O" = true /\
  exists c', Spec.charAt (PolygonNode.apply (PolygonNode.new []) "ok") 0 = Some c' /\
             JS.testAZ c' = true /\ c' <> "O"%char.
Proof.
  split; [reflexivity | ]. split; [reflexivity | ]. split; [reflexivity | ].
  destruct (polygon_key_range_and_effect [] "ok") as [_ Heffect].
  apply (Heffect eq_refl 0%nat "O"%char); reflexivity.
Defined.

(** Some pair of vertices, the first before the second, is closer than the
    minimum. *)
Lemma tooClose_pairs (minDist : float) (vertices : list Geometry.Point) :
  Geometry.tooClose minDist vertices = true <->
  exists i j,
    (i < j < List.length vertices)%nat /\
    PrimFloat.ltb (Geometry.distance (Geometry.at_ vertices i)
                                     (Geometry.at_ vertices j)) minDist = true.
Proof.
  unfold Geometry.at_.
  induction vertices as [ | v rest IH]; cbn [Geometry.tooClose].
  - split; [discriminate | ]. intros [i [j [Hij _]]]. simpl in Hij. lia.
  - rewrite orb_true_iff, existsb_exists, IH. split.
    + intros [[w [Hin Hclose]] | [i [j [Hij Hclose]]]].
      * destruct (In_nth _ _ Geometry.origin Hin) as [j [Hj Hnth]].
        exists 0%nat, (S j). split; [simpl; lia | ]. simpl. now rewrite Hnth.
      * exists (S i), (S j). split; [simpl; lia | exact Hclose].
    + intros [i [j [Hij Hclose]]]. simpl in Hij.
      destruct j as [ | j]; [lia | ]. destruct i as [ | i].
      * left. exists (nth j rest Geometry.origin). split; [ | exact Hclose].
        apply nth_In. lia.
      * right. exists i, j. split; [lia | exact Hclose].
Qed.

(** X16: [validatePolygon] accepts a vertex list exactly when it has 3 to
    12 vertices, no two vertices are closer than 15 and the area is not
    below 100; it then reports the number of vertices and no error, and it
    reports 0 sides and an error otherwise. *)
Theorem validatePolygon_accepts_iff (vertices : list Geometry.Point) :
  let result := Geometry.validatePolygon vertices in
  (Geometry.valid result = true <->
   (3 <= List.length vertices <= 12)%nat /\
   (forall i j,
       (i < j < List.length vertices)%nat ->
       PrimFloat.ltb (Geometry.distance (Geometry.at_ vertices i)
                                        (Geometry.at_ vertices j)) 15 = false) /\
   PrimFloat.ltb (Geometry.polygonArea vertices) 100 = false) /\
  (Geometry.valid result = true ->
   Geometry.sides result = List.length vertices /\ Geometry.error result = ""%string) /\
  (Geometry.valid result = false ->
   Geometry.sides result = 0%nat /\ Geometry.error result <> ""%string).
Proof.
  cbv zeta. unfold Geometry.validatePolygon.
  destruct (List.length vertices <? 3)%nat eqn:H3.
  { apply Nat.ltb_lt in H3. cbn [Geometry.valid Geometry.sides Geometry.error]. split; [ | split].
    - split; [discriminate | intros [Hn _]; lia].
    - discriminate.
    - intros _. split; [reflexivity | discriminate]. }
  destruct (12 <? List.length vertices)%nat eqn:H12.
  { apply Nat.ltb_lt in H12. cbn [Geometry.valid Geometry.sides Geometry.error]. split; [ | split].
    - split; [discriminate | intros [Hn _]; lia].
    - discriminate.
    - intros _. split; [reflexivity | discriminate]. }
  apply Nat.ltb_ge in H3, H12.
  destruct (Geometry.tooClose 15 vertices) eqn:Hclose.
  { apply tooClose_pairs in Hclose. destruct Hclose as [i [j [Hij Hlt]]].
    cbn [Geometry.valid Geometry.sides Geometry.error]. split; [ | split].
    - split; [discriminate | ]. intros [_ [Hfar _]].
      rewrite (Hfar i j Hij) in Hlt. discriminate.
    - discriminate.
    - intros _. split; [reflexivity | discriminate]. }
  assert (Hfar : forall i j,
             (i < j < List.length vertices)%nat ->
             PrimFloat.ltb (Geometry.distance (Geometry.at_ vertices i)
                                              (Geometry.at_ vertices j)) 15 = false).
  { intros i j Hij.
    destruct (PrimFloat.ltb (Geometry.distance (Geometry.at_ vertices i)
                                               (Geometry.at_ vertices j)) 15) eqn:Hlt;
      [ | reflexivity].
    assert (Htrue : Geometry.tooClose 15 vertices = true)
      by (apply tooClose_pairs; now exists i, j).
    congruence. }
  destruct (PrimFloat.ltb (Geometry.polygonArea vertices) 100) eqn:Harea;
    cbn [Geometry.valid Geometry.sides Geometry.error].
  - split; [ | split].
    + split; [discriminate | intros [_ [_ Hno]]; discriminate].
    + discriminate.
    + intros _. split; [reflexivity | discriminate].
  - split; [ | split].
    + split; [intros _ | reflexivity]. split; [lia | ]. split; [exact Hfar | reflexivity].
    + intros _. split; reflexivity.
    + discriminate.
Qed.

Lemma validatePolygon_accepts_iff_witness :
  Geometry.valid (Geometry.validatePolygon Examples.flatTriangle) = true /\
  Geometry.sides (Geometry.validatePolygon Examples.flatTriangle) = 3%nat.
Proof.
  split; [vm_compute; reflexivity | ].
  destruct (validatePolygon_accepts_iff Examples.flatTriangle) as [_ [Hvalid _]].
  destruct (Hvalid ltac:(vm_compute; reflexivity)) as [Hsides _]. exact Hsides.
Defined.

(** ** Attack estimates: bounds and growth *)

Lemma ltb_combinations (t c : Z) (bound : Q) :
  bound == inject_Z c ->
  Attack.ltb (inject_Z t / inject_Z 1000000) bound = (t <? c * 1000000)%Z.
Proof.
  intros Hbound.
  destruct (t <? c * 1000000)%Z eqn:Hlt.
  - apply ltb_lt. rewrite Hbound. apply Z.ltb_lt in Hlt.
    unfold Qlt, Qdiv, Qmult, Qinv, inject_Z. simpl. lia.
  - destruct (Attack.ltb (inject_Z t / inject_Z 1000000) bound) eqn:Hq; [ | reflexivity].
    apply ltb_lt in Hq. rewrite Hbound in Hq. apply Z.ltb_ge in Hlt.
    unfold Qlt, Qdiv, Qmult, Qinv, inject_Z in Hq. simpl in Hq. lia.
Qed.

(** The brute-force penalty read off the number of combinations. *)
Lemma bruteForce_penalty_combinations (pipeline : CipherPipeline.t) :
  Attack.penalty (Attack.bruteForceAttack pipeline)
  = Spec.combinationBucket (Spec.totalCombinations (CipherPipeline.nodes pipeline)).
Proof.
  unfold Attack.bruteForceAttack. cbn [Attack.penalty].
  rewrite combinations_fold, Z.mul_1_l.
  rewrite minutes_under_60, hours_under_24.
  unfold Spec.combinationBucket.
  rewrite (ltb_combinations _ 1 1) by reflexivity.
  rewrite (ltb_combinations _ 60 60) by reflexivity.
  rewrite (ltb_combinations _ 3600 (60 * 60)) by reflexivity.
  rewrite (ltb_combinations _ 86400 (24 * 60 * 60)) by reflexivity.
  reflexivity.
Qed.

Lemma multiplicity_range (node : CipherNode) : (2 <= Spec.multiplicity node <= 26)%Z.
Proof. destruct node; simpl; lia. Qed.

Lemma totalCombinations_range (nodes : list CipherNode) :
  (1 <= Spec.totalCombinations nodes <= 26 ^ Z.of_nat (List.length nodes))%Z.
Proof.
  unfold Spec.totalCombinations.
  induction nodes as [ | node nodes IH]; cbn [fold_right List.length].
  - simpl. lia.
  - pose proof (multiplicity_range node) as Hm.
    rewrite Nat2Z.inj_succ, Z.pow_succ_r by lia. nia.
Qed.

Lemma totalCombinations_app (nodes : list CipherNode) (node : CipherNode) :
  Spec.totalCombinations (nodes ++ [node])
  = (Spec.totalCombinations nodes * Spec.multiplicity node)%Z.
Proof.
  unfold Spec.totalCombinations.
  induction nodes as [ | n nodes IH]; cbn [fold_right app].
  - ring.
  - rewrite IH. ring.
Qed.

Lemma combinationBucket_antitone (t t' : Z) :
  (t <= t')%Z -> (Spec.combinationBucket t' <= Spec.combinationBucket t)%Z.
Proof.
  intros Hle. unfold Spec.combinationBucket.
  repeat match goal with
         | |- context [(?a <? ?b)%Z] => destruct (Z.ltb_spec a b)
         end; lia.
Qed.

Lemma round_range (v : Q) : 0 <= v -> v <= 30 -> (0 <= Attack.round v <= 30)%Z.
Proof.
  intros H0 H30. unfold Attack.round. split.
  - change 0%Z with (Qfloor 0). apply Qfloor_resp_le.
    apply Qle_trans with v; [exact H0 | ].
    rewrite <- (Qplus_0_r v) at 1. apply Qplus_le_r. discriminate.
  - change 30%Z with (Qfloor (30 + (1 # 2))). apply Qfloor_resp_le.
    now apply Qplus_le_l.
Qed.

Lemma frequencyAnalysisAttack_range (ciphertext : string) :
  (0 <= Attack.frequencyAnalysisAttack ciphertext <= 30)%Z.
Proof.
  unfold Attack.frequencyAnalysisAttack. cbv zeta.
  destruct (List.length (filter JS.testAZ (JS.split ciphertext)) =? 0)%nat; [lia | ].
  apply round_range.
  - apply Q.min_glb; [discriminate | ].
    apply Qmult_le_0_compat; [apply Q.le_max_l | discriminate].
  - apply Q.le_min_l.
Qed.

(** X17: the frequency penalty lies between 0 and 30 and is 0 for a text
    without uppercase letters; the brute-force penalty is one of 40, 30, 15,
    5, 0; the total penalty lies between 0 and 50. *)
Theorem attack_penalty_bounds (plaintext ciphertext : string)
        (pipeline : CipherPipeline.t) :
  (0 <= Attack.frequencyAnalysisAttack ciphertext <= 30)%Z /\
  (filter JS.testAZ (JS.split ciphertext) = [] ->
   Attack.frequencyAnalysisAttack ciphertext = 0%Z) /\
  In (Attack.penalty (Attack.bruteForceAttack pipeline)) [40; 30; 15; 5; 0]%Z /\
  (0 <= Attack.totalPenalty (Attack.runAttacks plaintext ciphertext pipeline) <= 50)%Z.
Proof.
  pose proof (frequencyAnalysisAttack_range ciphertext) as Hfreq.
  assert (Hbf : In (Attack.penalty (Attack.bruteForceAttack pipeline)) [40; 30; 15; 5; 0]%Z).
  { rewrite bruteForce_penalty_combinations. unfold Spec.combinationBucket.
    repeat match goal with
           | |- context [(?a <? ?b)%Z] => destruct (a <? b)%Z
           end; simpl; tauto. }
  split; [exact Hfreq | ]. split; [ | split; [exact Hbf | ]].
  - intros Hnone. unfold Attack.frequencyAnalysisAttack. cbv zeta.
    now rewrite Hnone.
  - unfold Attack.runAttacks. cbn [Attack.totalPenalty].
    cbn [In] in Hbf. lia.
Qed.

Lemma attack_penalty_bounds_witness :
  filter JS.testAZ (JS.split "12 34") = [] /\
  Attack.frequencyAnalysisAttack "12 34" = 0%Z.
Proof.
  split; [reflexivity | ].
  destruct (attack_penalty_bounds "12 34" "12 34" CipherPipeline.new) as [_ [Hnone _]].
  now apply Hnone.
Defined.

(** X18: a pipeline of at most four nodes is exhausted in under a second:
    its brute-force penalty is 40, its total penalty at least 40 and the
    animation is shown; a brute-force penalty of 0 takes at least eight
    nodes. *)
Theorem bruteForce_small_pipelines (plaintext ciphertext : string)
        (pipeline : CipherPipeline.t) :
  ((List.length (CipherPipeline.nodes pipeline) <= 4)%nat ->
   Attack.penalty (Attack.bruteForceAttack pipeline) = 40%Z /\
   (40 <= Attack.totalPenalty (Attack.runAttacks plaintext ciphertext pipeline))%Z /\
   Attack.showAnimation (Attack.runAttacks plaintext ciphertext pipeline) = true) /\
  (Attack.penalty (Attack.bruteForceAttack pipeline) = 0%Z ->
   (8 <= List.length (CipherPipeline.nodes pipeline))%nat).
Proof.
  pose proof (totalCombinations_range (CipherPipeline.nodes pipeline)) as Hrange.
  pose proof (frequencyAnalysisAttack_range ciphertext) as Hfreq.
  split.
  - intros Hlen.
    assert (Hpow : (26 ^ Z.of_nat (List.length (CipherPipeline.nodes pipeline))
                    <= 26 ^ 4)%Z) by (apply Z.pow_le_mono_r; lia).
    assert (H40 : Attack.penalty (Attack.bruteForceAttack pipeline) = 40%Z).
    { rewrite bruteForce_penalty_combinations. unfold Spec.combinationBucket.
      destruct (Z.ltb_spec (Spec.totalCombinations (CipherPipeline.nodes pipeline))
                           1000000); [reflexivity | ].
      change (26 ^ 4)%Z with 456976%Z in Hpow. lia. }
    split; [exact H40 | ].
    unfold Attack.runAttacks. cbn [Attack.totalPenalty Attack.showAnimation].
    rewrite H40. split; [lia | ]. apply Z.ltb_lt. lia.
  - rewrite bruteForce_penalty_combinations. unfold Spec.combinationBucket.
    intros H0.
    destruct (Nat.le_gt_cases 8 (List.length (CipherPipeline.nodes pipeline)))
      as [Hge | Hlt]; [exact Hge | exfalso].
    assert (Hpow : (26 ^ Z.of_nat (List.length (CipherPipeline.nodes pipeline))
                    <= 26 ^ 7)%Z) by (apply Z.pow_le_mono_r; lia).
    change (26 ^ 7)%Z with 8031810176%Z in Hpow.
    repeat match type of H0 with
           | context [(?a <? ?b)%Z] => destruct (Z.ltb_spec a b)
           end; lia.
Qed.

Lemma bruteForce_small_pipelines_witness :
  (List.length (CipherPipeline.nodes Examples.twoNodes) <= 4)%nat /\
  Attack.penalty (Attack.bruteForceAttack Examples.twoNodes) = 40%Z.
Proof.
  split; [vm_compute; lia | ].
  destruct (bruteForce_small_pipelines "AB" "BA" Examples.twoNodes) as [Hsmall _].
  destruct (Hsmall ltac:(vm_compute; lia)) as [H40 _]. exact H40.
Defined.

(** X19: adding a node to a pipeline never raises its brute-force
    penalty. *)
Theorem bruteForce_penalty_never_grows (pipeline : CipherPipeline.t)
        (node : CipherNode) :
  (Attack.penalty (Attack.bruteForceAttack (CipherPipeline.addNode pipeline node))
   <= Attack.penalty (Attack.bruteForceAttack pipeline))%Z.
Proof.
  rewrite !bruteForce_penalty_combinations.
  apply combinationBucket_antitone.
  cbn [CipherPipeline.addNode CipherPipeline.nodes].
  rewrite totalCombinations_app.
  pose proof (totalCombinations_range (CipherPipeline.nodes pipeline)) as Hrange.
  pose proof (multiplicity_range node) as Hm. nia.
Qed.

(** ** The score: bounds and special inputs *)

(** The breakdown in closed form. *)
Lemma evaluateCipher_breakdown (plaintext ciphertext : string)
      (pipeline : CipherPipeline.t) :
  let e := Rmin 20 (Rmax 0 (Spec.shannon ciphertext - Spec.shannon plaintext) * 8) in
  let d := Rmin 12 (Spec.pctChanged plaintext ciphertext * (12 / 100)) in
  let k := Rmin 8 (Spec.keySpaceBits (CipherPipeline.nodes pipeline)) in
  let pen := Spec.penalties plaintext ciphertext
               (Evaluator.analyzeFrequencySkew ciphertext)
               (CipherPipeline.nodes pipeline) in
  Evaluator.evaluateCipher plaintext ciphertext pipeline
  = {| Evaluator.base := 60; Evaluator.entropy := e; Evaluator.diffusion := d;
       Evaluator.keySpace := k; Evaluator.penalties := pen;
       Evaluator.final := Spec.clamp (60 + e + d + k + pen) 0 100 |}.
Proof.
  cbv zeta. unfold Evaluator.evaluateCipher. cbv zeta.
  rewrite !calculateEntropy_shannon, calculateDiffusion_pct, estimateKeySpace_bits.
  rewrite isIdentical_dec, isSimpleReversal_dec, isEmpty_nodes.
  unfold Spec.penalties, Spec.clamp, Evaluator.ltb.
  set (e := Rmin 20 (Rmax 0 (Spec.shannon ciphertext - Spec.shannon plaintext) * 8)).
  set (d := Rmin 12 (Spec.pctChanged plaintext ciphertext * (12 / 100))).
  set (k := Rmin 8 (Spec.keySpaceBits (CipherPipeline.nodes pipeline))).
  destruct (string_dec ciphertext plaintext);
    destruct (string_dec ciphertext (Spec.reversal plaintext));
    destruct (Rlt_dec (Spec.pctChanged plaintext ciphertext) 30);
    destruct (Rlt_dec (Evaluator.analyzeFrequencySkew ciphertext) 20);
    destruct (CipherPipeline.nodes pipeline);
    cbn [Evaluator.penalise Evaluator.setEntropy Evaluator.setDiffusion
         Evaluator.setKeySpace Evaluator.base Evaluator.entropy
         Evaluator.diffusion Evaluator.keySpace Evaluator.penalties
         Evaluator.final];
    unfold Evaluator.setFinal;
    cbn [Evaluator.setEntropy Evaluator.setDiffusion
         Evaluator.setKeySpace Evaluator.base Evaluator.entropy
         Evaluator.diffusion Evaluator.keySpace Evaluator.penalties
         Evaluator.final];
    match goal with
    | |- {| Evaluator.base := _; Evaluator.entropy := _; Evaluator.diffusion := _;
            Evaluator.keySpace := _; Evaluator.penalties := ?p1;
            Evaluator.final := Rmax 0 (Rmin 100 ?s1) |}
         = {| Evaluator.base := _; Evaluator.entropy := _; Evaluator.diffusion := _;
              Evaluator.keySpace := _; Evaluator.penalties := ?p2;
              Evaluator.final := Rmax 0 (Rmin 100 ?s2) |} =>
        apply (f_equal2
                 (fun p s =>
                    {| Evaluator.base := 60; Evaluator.entropy := e;
                       Evaluator.diffusion := d; Evaluator.keySpace := k;
                       Evaluator.penalties := p;
                       Evaluator.final := Rmax 0 (Rmin 100 s) |})
                 (x1 := p1) (y1 := p2) (x2 := s1) (y2 := s2)); lra
    end.
Qed.

Lemma changed_positions_bound (l1 l2 : list ascii) :
  (List.length
     (filter (fun ab : ascii * ascii => negb (Ascii.eqb (fst ab) (snd ab)))
             (combine l1 l2)) <= List.length l1)%nat.
Proof.
  etransitivity; [apply filter_length_le | ].
  rewrite length_combine. apply Nat.le_min_l.
Qed.

Lemma pctChanged_range (plaintext ciphertext : string) :
  plaintext <> ""%string \/ ciphertext <> ""%string ->
  (0 <= Spec.pctChanged plaintext ciphertext <= 100)%R.
Proof.
  intros Hne. unfold Spec.pctChanged.
  destruct (String.length plaintext =? String.length ciphertext)%nat eqn:Hlen;
    [ | lra].
  apply Nat.eqb_eq in Hlen.
  assert (Hpos : (0 < String.length plaintext)%nat).
  { destruct plaintext as [ | a p]; [ | simpl; lia].
    destruct ciphertext as [ | b c]; [ | discriminate Hlen].
    destruct Hne as [Hne | Hne]; congruence. }
  pose proof (changed_positions_bound (JS.split plaintext) (JS.split ciphertext)) as Hb.
  rewrite length_split in Hb.
  set (n := List.length _) in *.
  assert (Hn : (0 <= INR n <= INR (String.length plaintext))%R)
    by (split; [apply pos_INR | now apply le_INR]).
  assert (Hl : (0 < INR (String.length plaintext))%R) by now apply lt_0_INR.
  split.
  - apply Rmult_le_pos; [ | lra]. apply Rmult_le_pos; [lra | ].
    left. now apply Rinv_0_lt_compat.
  - assert (Hdiv : (INR n / INR (String.length plaintext) <= 1)%R).
    { apply (Rmult_le_reg_r (INR (String.length plaintext))); [exact Hl | ].
      unfold Rdiv. rewrite Rmult_assoc, Rinv_l by lra. lra. }
    lra.
Qed.

Lemma log2_nonneg (v : R) : (1 <= v)%R -> (0 <= Evaluator.log2 v)%R.
Proof.
  intros Hv. unfold Evaluator.log2. pose proof ln_lt_2 as H2.
  assert (Hln : (0 <= ln v)%R).
  { destruct Hv as [Hlt | <-]; [ | rewrite ln_1; lra].
    left. rewrite <- ln_1. apply ln_increasing; lra. }
  apply Rmult_le_pos; [exact Hln | ]. left. apply Rinv_0_lt_compat. lra.
Qed.

Lemma keySpaceBits_nonneg (nodes : list CipherNode) :
  (0 <= Spec.keySpaceBits nodes)%R.
Proof.
  unfold Spec.keySpaceBits, Spec.sum.
  induction nodes as [ | node nodes IH]; cbn [map fold_right]; [lra | ].
  assert (Hm : (0 <= Evaluator.log2 (IZR (Spec.multiplicity node)))%R).
  { apply log2_nonneg. pose proof (multiplicity_range node) as Hr.
    apply IZR_le. lia. }
  lra.
Qed.

Lemma penalties_range (plaintext ciphertext : string) (skew : R)
      (nodes : list CipherNode) :
  (- 95 <= Spec.penalties plaintext ciphertext skew nodes <= 0)%R.
Proof.
  unfold Spec.penalties.
  destruct (string_dec ciphertext plaintext);
    destruct (string_dec ciphertext (Spec.reversal plaintext));
    destruct (Rlt_dec (Spec.pctChanged plaintext ciphertext) 30);
    destruct (Rlt_dec skew 20); destruct nodes; lra.
Qed.

Lemma clamp_range (v : R) : (0 <= Spec.clamp v 0 100 <= 100)%R.
Proof.
  unfold Spec.clamp. split; [apply Rmax_l | ].
  apply Rmax_lub; [lra | apply Rmin_l].
Qed.

(** X20: for texts that are not both empty, the entropy points lie between
    0 and 20, the diffusion points between 0 and 12, the key-space points
    between 0 and 8, the penalties between -95 and 0, and the final score
    between 0 and 100. *)
Theorem evaluateCipher_bounds (plaintext ciphertext : string)
        (pipeline : CipherPipeline.t) :
  plaintext <> ""%string \/ ciphertext <> ""%string ->
  let b := Evaluator.evaluateCipher plaintext ciphertext pipeline in
  (0 <= Evaluator.entropy b <= 20)%R /\
  (0 <= Evaluator.diffusion b <= 12)%R /\
  (0 <= Evaluator.keySpace b <= 8)%R /\
  (- 95 <= Evaluator.penalties b <= 0)%R /\
  (0 <= Evaluator.final b <= 100)%R.
Proof.
  intros Hne. cbv zeta. rewrite evaluateCipher_breakdown. cbv zeta.
  cbn [Evaluator.entropy Evaluator.diffusion Evaluator.keySpace
       Evaluator.penalties Evaluator.final].
  pose proof (pctChanged_range plaintext ciphertext Hne) as Hpct.
  pose proof (keySpaceBits_nonneg (CipherPipeline.nodes pipeline)) as Hbits.
  split; [ | split; [ | split; [ | split]]].
  - split; [ | apply Rmin_l].
    apply Rmin_glb; [lra | ].
    pose proof (Rmax_l 0 (Spec.shannon ciphertext - Spec.shannon plaintext)). lra.
  - split; [ | apply Rmin_l]. apply Rmin_glb; lra.
  - split; [ | apply Rmin_l]. apply Rmin_glb; lra.
  - apply penalties_range.
  - apply clamp_range.
Qed.

Lemma evaluateCipher_bounds_witness :
  ("HELLO" <> "" \/ "KHOOR" <> "")%string /\
  (0 <= Evaluator.final
          (Evaluator.evaluateCipher "HELLO" "KHOOR"
             {| CipherPipeline.nodes := [Shift (ShiftNode.new 3)] |}) <= 100)%R.
Proof.
  split; [left; discriminate | ].
  destruct (evaluateCipher_bounds "HELLO" "KHOOR"
              {| CipherPipeline.nodes := [Shift (ShiftNode.new 3)] |})
    as [_ [_ [_ [_ Hfinal]]]]; [left; discriminate | exact Hfinal].
Defined.

Lemma pctChanged_same (text : string) : Spec.pctChanged text text = 0%R.
Proof.
  unfold Spec.pctChanged. rewrite Nat.eqb_refl.
  assert (Hnone : forall l : list ascii,
             filter (fun ab : ascii * ascii => negb (Ascii.eqb (fst ab) (snd ab)))
                    (combine l l) = []).
  { induction l as [ | a l IH]; simpl; [reflexivity | ].
    now rewrite Ascii.eqb_refl. }
  rewrite Hnone. simpl. unfold Rdiv. now rewrite !Rmult_0_l.
Qed.

(** X21: a ciphertext equal to a non-empty plaintext earns no entropy and
    no diffusion points and at least the two penalties of 25 and 10, so
    that the final score is at most 33; with the empty pipeline, whose
    ciphertext is the plaintext, the final score is 0. *)
Theorem identical_ciphertext_score (plaintext : string)
        (pipeline : CipherPipeline.t) :
  plaintext <> ""%string ->
  let b := Evaluator.evaluateCipher plaintext plaintext pipeline in
  Evaluator.entropy b = 0%R /\ Evaluator.diffusion b = 0%R /\
  (Evaluator.penalties b <= - 35)%R /\ (Evaluator.final b <= 33)%R /\
  Evaluator.final
    (Evaluator.evaluateCipher plaintext
       (CipherPipeline.encrypt CipherPipeline.new plaintext) CipherPipeline.new)
  = 0%R.
Proof.
  intros Hne. cbv zeta.
  change (CipherPipeline.encrypt CipherPipeline.new plaintext) with plaintext.
  rewrite !evaluateCipher_breakdown. cbv zeta.
  cbn [Evaluator.entropy Evaluator.diffusion Evaluator.keySpace
       Evaluator.penalties Evaluator.final].
  rewrite pctChanged_same, Rminus_diag.
  assert (He : Rmin 20 (Rmax 0 0 * 8) = 0%R).
  { rewrite Rmax_left by lra. rewrite Rmult_0_l. apply Rmin_right. lra. }
  assert (Hd : Rmin 12 (0 * (12 / 100)) = 0%R)
    by (rewrite Rmult_0_l; apply Rmin_right; lra).
  rewrite He, Hd.
  assert (Hpen : forall nodes,
             (Spec.penalties plaintext plaintext
                (Evaluator.analyzeFrequencySkew plaintext) nodes <= - 35)%R).
  { intros nodes. unfold Spec.penalties. rewrite pctChanged_same.
    destruct (string_dec plaintext plaintext) as [_ | Hn]; [ | congruence].
    destruct (string_dec plaintext (Spec.reversal plaintext));
      destruct (Rlt_dec 0 30); destruct (Rlt_dec _ 20); destruct nodes; lra. }
  assert (Hpen0 : (Spec.penalties plaintext plaintext
                     (Evaluator.analyzeFrequencySkew plaintext) [] <= - 75)%R).
  { unfold Spec.penalties. rewrite pctChanged_same.
    destruct (string_dec plaintext plaintext) as [_ | Hn]; [ | congruence].
    destruct (string_dec plaintext (Spec.reversal plaintext));
      destruct (Rlt_dec 0 30); destruct (Rlt_dec _ 20); lra. }
  split; [reflexivity | ]. split; [reflexivity | ]. split; [apply Hpen | ].
  pose proof (Hpen (CipherPipeline.nodes pipeline)) as Hp.
  pose proof (Rmin_l 8 (Spec.keySpaceBits (CipherPipeline.nodes pipeline))) as Hk.
  split.
  - unfold Spec.clamp. apply Rmax_lub; [lra | ].
    eapply Rle_trans; [apply Rmin_r | lra].
  - cbn [CipherPipeline.new CipherPipeline.nodes]. unfold Spec.clamp.
    assert (Hk0 : Rmin 8 (Spec.keySpaceBits []) = 0%R)
      by (unfold Spec.keySpaceBits; simpl; apply Rmin_right; lra).
    rewrite Hk0. apply Rmax_left.
    eapply Rle_trans; [apply Rmin_r | lra].
Qed.

Lemma identical_ciphertext_score_witness :
  "HELLO"%string <> ""%string /\
  Evaluator.final
    (Evaluator.evaluateCipher "HELLO"
       (CipherPipeline.encrypt CipherPipeline.new "HELLO") CipherPipeline.new)
  = 0%R.
Proof.
  split; [discriminate | ].
  destruct (identical_ciphertext_score "HELLO" CipherPipeline.new)
    as [_ [_ [_ [_ Hzero]]]]; [discriminate | exact Hzero].
Defined.


(** ** Entropy *)

Lemma shannon_entropyOfChars (s : string) :
  Spec.shannon s = Spec.entropyOfChars (JS.split s).
Proof.
  unfold Spec.shannon, Spec.entropyOfChars, Spec.occurrences.
  now rewrite length_split.
Qed.

Lemma sum_nonpos (A : Type) (h : A -> R) (l : list A) :
  (forall a, In a l -> (h a <= 0)%R) -> (Spec.sum (map h l) <= 0)%R.
Proof.
  unfold Spec.sum. induction l as [ | a l IH]; intros Hh; simpl; [lra | ].
  pose proof (Hh a (or_introl eq_refl)) as Ha.
  assert (Hl : (fold_right Rplus 0 (map h l) <= 0)%R)
    by (apply IH; intros b Hb; apply Hh; now right).
  lra.
Qed.

Lemma log2_nonpos (p : R) : (0 < p <= 1)%R -> (Evaluator.log2 p <= 0)%R.
Proof.
  intros [Hpos Hle]. unfold Evaluator.log2. pose proof ln_lt_2 as H2.
  assert (Hln : (ln p <= 0)%R).
  { destruct Hle as [Hlt | ->]; [ | rewrite ln_1; lra].
    left. rewrite <- ln_1. now apply ln_increasing. }
  assert (Hinv : (0 < / ln 2)%R) by (apply Rinv_0_lt_compat; lra).
  unfold Rdiv. nra.
Qed.

Lemma entropyOfChars_nonneg (l : list ascii) : (0 <= Spec.entropyOfChars l)%R.
Proof.
  unfold Spec.entropyOfChars.
  match goal with |- (0 <= - ?x)%R => assert (Hs : (x <= 0)%R); [ | lra] end.
  apply sum_nonpos. intros c Hc. cbv zeta.
  apply nodup_In in Hc. apply (count_occ_In ascii_dec) in Hc.
  pose proof (count_occ_bound ascii_dec c l) as Hb.
  assert (Hn : (0 < INR (count_occ ascii_dec l c))%R) by (apply lt_0_INR; lia).
  assert (Hl : (INR (count_occ ascii_dec l c) <= INR (List.length l))%R) by now apply le_INR.
  assert (Hinv : (0 < / INR (List.length l))%R) by (apply Rinv_0_lt_compat; lra).
  assert (Hp : (0 < INR (count_occ ascii_dec l c) / INR (List.length l) <= 1)%R).
  { split; [unfold Rdiv; nra | ].
    apply (Rmult_le_reg_r (INR (List.length l))); [lra | ].
    unfold Rdiv. rewrite Rmult_assoc, Rinv_l by lra. lra. }
  pose proof (log2_nonpos _ Hp) as Hlog. nra.
Qed.

(** X22: the entropy of a text is never negative, so that the entropy
    points are positive only when the ciphertext has strictly more entropy
    than the plaintext. *)
Theorem calculateEntropy_nonneg (plaintext ciphertext : string)
        (pipeline : CipherPipeline.t) :
  (0 <= Evaluator.calculateEntropy ciphertext)%R /\
  ((Evaluator.calculateEntropy ciphertext <= Evaluator.calculateEntropy plaintext)%R ->
   Evaluator.entropy (Evaluator.evaluateCipher plaintext ciphertext pipeline) = 0%R).
Proof.
  split.
  - rewrite calculateEntropy_shannon, shannon_entropyOfChars.
    apply entropyOfChars_nonneg.
  - intros Hle. rewrite evaluateCipher_breakdown. cbv zeta. cbn [Evaluator.entropy].
    rewrite !calculateEntropy_shannon in Hle.
    rewrite Rmax_left by lra. rewrite Rmult_0_l. apply Rmin_right. lra.
Qed.

Lemma calculateEntropy_nonneg_witness :
  (Evaluator.calculateEntropy "" <= Evaluator.calculateEntropy "AB")%R /\
  Evaluator.entropy (Evaluator.evaluateCipher "AB" "" CipherPipeline.new) = 0%R.
Proof.
  assert (Hle : (Evaluator.calculateEntropy "" <= Evaluator.calculateEntropy "AB")%R).
  { replace (Evaluator.calculateEntropy "") with 0%R
      by (unfold Evaluator.calculateEntropy; reflexivity).
    rewrite calculateEntropy_shannon, shannon_entropyOfChars.
    apply entropyOfChars_nonneg. }
  split; [exact Hle | ].
  destruct (calculateEntropy_nonneg "AB" "" CipherPipeline.new) as [_ Hzero].
  now apply Hzero.
Defined.

(** Texts with the same counts of every character have the same entropy. *)
Lemma entropyOfChars_counts (l l' : list ascii) :
  List.length l = List.length l' ->
  (forall c, count_occ ascii_dec l c = count_occ ascii_dec l' c) ->
  Spec.entropyOfChars l = Spec.entropyOfChars l'.
Proof.
  intros Hlen Hcount. unfold Spec.entropyOfChars. f_equal.
  rewrite Hlen.
  rewrite (map_ext _ (fun c =>
             (INR (count_occ ascii_dec l' c) / INR (List.length l')
              * Evaluator.log2 (INR (count_occ ascii_dec l' c) / INR (List.length l')))%R))
    by (intros c; cbv zeta; now rewrite Hcount).
  apply sum_Permutation, Permutation_map.
  apply NoDup_Permutation; [apply NoDup_nodup | apply NoDup_nodup | ].
  intros c. rewrite !nodup_In, !(count_occ_In ascii_dec), Hcount. tauto.
Qed.

Section InjectiveMaps.

Variables f g : ascii -> ascii.
Hypothesis g_f : forall c, g (f c) = c.

Lemma count_occ_map_injective (l : list ascii) (c : ascii) :
  count_occ ascii_dec (map f l) (f c) = count_occ ascii_dec l c.
Proof.
  induction l as [ | a l IH]; simpl; [reflexivity | ].
  destruct (ascii_dec (f a) (f c)) as [Heq | Hne];
    destruct (ascii_dec a c) as [Hac | Hac]; try congruence.
Qed.

Lemma NoDup_map_injective (l : list ascii) : NoDup l -> NoDup (map f l).
Proof.
  induction 1 as [ | a l Hnotin Hnd IH]; simpl; constructor; [ | exact IH].
  intros Hin. apply in_map_iff in Hin. destruct Hin as [b [Hfb Hb]].
  assert (b = a) by (rewrite <- (g_f a), <- (g_f b); now f_equal).
  subst b. contradiction.
Qed.

(** A substitution of the characters keeps the entropy. *)
Lemma entropyOfChars_map_injective (l : list ascii) :
  Spec.entropyOfChars (map f l) = Spec.entropyOfChars l.
Proof.
  unfold Spec.entropyOfChars. f_equal. rewrite length_map.
  transitivity
    (Spec.sum
       (map (fun c =>
               (INR (count_occ ascii_dec (map f l) c) / INR (List.length l)
                * Evaluator.log2 (INR (count_occ ascii_dec (map f l) c)
                                  / INR (List.length l)))%R)
            (map f (nodup ascii_dec l)))).
  - apply sum_Permutation, Permutation_map.
    apply NoDup_Permutation;
      [apply NoDup_nodup | apply NoDup_map_injective, NoDup_nodup | ].
    intros c. rewrite nodup_In, !in_map_iff.
    split; intros [a [Ha Hin]]; exists a; (split; [exact Ha | ]);
      [apply nodup_In; exact Hin | apply nodup_In in Hin; exact Hin].
  - rewrite map_map. f_equal. apply map_ext. intros c.
    now rewrite count_occ_map_injective.
Qed.

End InjectiveMaps.

Lemma shiftChar_left_inverse (k : Z) (c : ascii) :
  (0 <= k)%Z ->
  ShiftNode.shiftChar (26 - k mod 26) (ShiftNode.shiftChar k c) = c.
Proof.
  intros Hk. pose proof (Z.mod_pos_bound k 26 ltac:(lia)) as Hb.
  rewrite shiftChar_compose by lia.
  rewrite shiftChar_period by lia.
  replace ((k + (26 - k mod 26)) mod 26)%Z with 0%Z; [apply shiftChar_zero | ].
  rewrite (Z.div_mod k 26) at 1 by lia.
  replace (26 * (k / 26) + k mod 26 + (26 - k mod 26))%Z
    with ((k / 26 + 1) * 26)%Z by ring.
  now rewrite Z.mod_mul by lia.
Qed.

Lemma multiplyChar_left_inverse (v : Z) :
  (0 <= v)%Z -> In (v mod 26)%Z MultiplyNode.validKeys ->
  exists k', forall c,
      MultiplyNode.multiplyChar (Some k') (MultiplyNode.multiplyChar (Some v) c) = c.
Proof.
  intros Hv Hres. destruct (validKeys_inverse _ Hres) as [k' [Hk' Hinv]].
  pose proof (validKeys_nonneg k' Hk') as Hk0.
  exists k'. intros c. rewrite multiplyChar_compose by assumption.
  apply multiplyChar_residue_one; [nia | ].
  now rewrite <- Z.mul_mod_idemp_l by lia.
Qed.

Lemma shift_keeps_entropy (s : string) (k : Z) :
  (0 <= k)%Z -> Spec.noLowercase s ->
  Spec.entropyOfChars (JS.split (ShiftNode.applyKey s k))
  = Spec.entropyOfChars (JS.split s).
Proof.
  intros Hk Hs. rewrite split_shift, (toUpperCase_fixed s Hs).
  apply (entropyOfChars_map_injective _ (ShiftNode.shiftChar (26 - k mod 26))).
  intros c. now apply shiftChar_left_inverse.
Qed.

Lemma multiply_keeps_entropy (s : string) (v : Z) :
  (0 <= v)%Z -> In (v mod 26)%Z MultiplyNode.validKeys -> Spec.noLowercase s ->
  Spec.entropyOfChars (JS.split (MultiplyNode.applyKey s (Some v)))
  = Spec.entropyOfChars (JS.split s).
Proof.
  intros Hv Hres Hs. rewrite split_multiply, (toUpperCase_fixed s Hs).
  destruct (multiplyChar_left_inverse v Hv Hres) as [k' Hinv].
  now apply (entropyOfChars_map_injective _ (MultiplyNode.multiplyChar (Some k'))).
Qed.

Lemma validKeys_small_residue (v : Z) :
  In v MultiplyNode.validKeys -> In (v mod 26)%Z MultiplyNode.validKeys.
Proof.
  intros Hin. replace (v mod 26)%Z with v; [exact Hin | ].
  revert Hin. unfold MultiplyNode.validKeys. simpl.
  intros H; repeat (destruct H as [H | H]; [subst v; reflexivity | ]).
  contradiction.
Qed.

(** A substitution node keeps the entropy of a text without lowercase
    letters, and puts no lowercase letter into it. *)
Lemma substitution_node_entropy (node : CipherNode) (s : string) :
  Spec.substitution node -> Spec.noLowercase s ->
  Spec.entropyOfChars (JS.split (applyNode node s))
  = Spec.entropyOfChars (JS.split s) /\
  Spec.noLowercase (applyNode node s).
Proof.
  intros Hnode Hs. destruct node as [n | | n | n]; cbn [applyNode Spec.substitution] in *.
  - split; [now apply shift_keeps_entropy | apply shift_noLowercase].
  - unfold ReverseNode.apply, Spec.noLowercase. rewrite split_join. split.
    + apply entropyOfChars_counts; [apply length_rev | ].
      intros c. apply count_occ_rev.
    + now apply Forall_rev.
  - destruct Hnode as [v [Hkey [Hv Hres]]]. unfold MultiplyNode.apply. rewrite Hkey.
    split; [now apply multiply_keeps_entropy | apply multiply_noLowercase].
  - destruct Hnode as [Hsides Hkey]. rewrite polygon_apply_stages. cbv zeta.
    assert (Hshift : (0 <= JS.orElse (JS.rem (PolygonNode.numSides n) 26) 3)%Z).
    { unfold JS.orElse, JS.rem.
      pose proof (Z.rem_nonneg (PolygonNode.numSides n) 26 ltac:(lia) Hsides).
      destruct (Z.rem (PolygonNode.numSides n) 26 =? 0)%Z; lia. }
    destruct (PolygonNode.convex n).
    + destruct (Hkey eq_refl) as [v Hv]. rewrite Hv.
      pose proof (indexFloorRem_In _ _ _ Hv) as Hin.
      split; [ | apply multiply_noLowercase].
      rewrite multiply_keeps_entropy.
      * now apply shift_keeps_entropy.
      * now apply validKeys_nonneg.
      * now apply validKeys_small_residue.
      * apply shift_noLowercase.
    + split; [now apply shift_keeps_entropy | apply shift_noLowercase].
Qed.




(** ** Diffusion of a shift; the threatened score *)

Lemma all_positions_changed (h : ascii -> ascii) (l : list ascii) :
  (forall a, In a l -> h a <> a) ->
  List.length
    (filter (fun ab : ascii * ascii => negb (Ascii.eqb (fst ab) (snd ab)))
            (combine l (map h l)))
  = List.length l.
Proof.
  induction l as [ | a l IH]; intros Hh; simpl; [reflexivity | ].
  assert (Hne : Ascii.eqb a (h a) = false).
  { apply Ascii.eqb_neq. intros Heq. apply (Hh a (or_introl eq_refl)). congruence. }
  rewrite Hne. simpl. f_equal. apply IH. intros b Hb. apply Hh. now right.
Qed.



Lemma small_pipeline_penalty (pipeline : CipherPipeline.t) :
  (List.length (CipherPipeline.nodes pipeline) <= 4)%nat ->
  Attack.penalty (Attack.bruteForceAttack pipeline) = 40%Z.
Proof.
  intros Hlen.
  pose proof (totalCombinations_range (CipherPipeline.nodes pipeline)) as Hrange.
  assert (Hpow : (26 ^ Z.of_nat (List.length (CipherPipeline.nodes pipeline))
                  <= 26 ^ 4)%Z) by (apply Z.pow_le_mono_r; lia).
  change (26 ^ 4)%Z with 456976%Z in Hpow.
  rewrite bruteForce_penalty_combinations. unfold Spec.combinationBucket.
  destruct (Z.ltb_spec (Spec.totalCombinations (CipherPipeline.nodes pipeline))
                       1000000); [reflexivity | lia].
Qed.

(** X25: for a pipeline of at most four nodes and texts that are not both
    empty, the score left after the attacks in [transmitSignal] lies
    between 0 and 60: the brute-force penalty of 40 is always taken off. *)
Theorem small_pipeline_threatened_score (plaintext ciphertext : string)
        (pipeline : CipherPipeline.t) :
  plaintext <> ""%string \/ ciphertext <> ""%string ->
  (List.length (CipherPipeline.nodes pipeline) <= 4)%nat ->
  (0 <= CipherDashGame.threatenedScore plaintext ciphertext pipeline <= 60)%R.
Proof.
  intros Hne Hlen. unfold CipherDashGame.threatenedScore. cbv zeta.
  rewrite evaluateCipher_breakdown. cbv zeta. cbn [Evaluator.final].
  match goal with
  | |- context [Spec.clamp ?v 0 100] => pose proof (clamp_range v) as Hfinal
  end.
  unfold Attack.runAttacks. cbn [Attack.totalPenalty].
  rewrite (small_pipeline_penalty pipeline Hlen).
  pose proof (frequencyAnalysisAttack_range ciphertext) as Hfreq.
  assert (Hpen : (40 <= Z.min 50 (0 + Attack.frequencyAnalysisAttack ciphertext + 40))%Z)
    by lia.
  apply IZR_le in Hpen.
  split; [apply Rmax_l | ].
  apply Rmax_lub; lra.
Qed.

Lemma small_pipeline_threatened_score_witness :
  ("SIGNAL" <> "" \/ "VLJQDO" <> "")%string /\
  (List.length (CipherPipeline.nodes Examples.twoNodes) <= 4)%nat /\
  (CipherDashGame.threatenedScore "SIGNAL" "VLJQDO" Examples.twoNodes <= 60)%R.
Proof.
  split; [left; discriminate | ]. split; [vm_compute; lia | ].
  apply (small_pipeline_threatened_score "SIGNAL" "VLJQDO" Examples.twoNodes).
  - left. discriminate.
  - vm_compute. lia.
Defined.

(** ** Pattern detection *)

Lemma digram_eqb_eq (d e : Patterns.Digram) : Patterns.eqb d e = true <-> d = e.
Proof.
  destruct d as [a b], e as [a' b']. unfold Patterns.eqb. cbn [fst snd].
  rewrite andb_true_iff, !Ascii.eqb_eq. split; [intros [-> ->]; reflexivity | ].
  intros H. injection H as -> ->. now split.
Qed.

Lemma digram_eqb_refl (d : Patterns.Digram) : Patterns.eqb d d = true.
Proof. now apply digram_eqb_eq. Qed.

Lemma digram_eqb_neq (d e : Patterns.Digram) : Patterns.eqb d e = false <-> d <> e.
Proof.
  split.
  - intros Hf Heq. apply digram_eqb_eq in Heq. congruence.
  - intros Hne. destruct (Patterns.eqb d e) eqn:He; [ | reflexivity].
    apply digram_eqb_eq in He. contradiction.
Qed.

Lemma digram_dec (d e : Patterns.Digram) : {d = e} + {d <> e}.
Proof. decide equality; apply ascii_dec. Defined.

Lemma digram_lookup_increment (t : list (Patterns.Digram * nat)) (d d' : Patterns.Digram) :
  Patterns.lookup (Patterns.increment t d) d'
  = if Patterns.eqb d d' then S (Patterns.lookup t d') else Patterns.lookup t d'.
Proof.
  induction t as [ | [e n] t IH]; cbn [Patterns.increment Patterns.lookup].
  - destruct (Patterns.eqb d d'); reflexivity.
  - destruct (Patterns.eqb e d) eqn:Hed; cbn [Patterns.lookup].
    + apply digram_eqb_eq in Hed. subst e.
      destruct (Patterns.eqb d d'); reflexivity.
    + rewrite IH. destruct (Patterns.eqb e d') eqn:Hed'; [ | reflexivity].
      apply digram_eqb_eq in Hed'. subst e. apply digram_eqb_neq in Hed.
      assert (Hsym : Patterns.eqb d d' = false) by (apply digram_eqb_neq; congruence).
      now rewrite Hsym.
Qed.

Lemma digram_keys_increment (t : list (Patterns.Digram * nat)) (d d' : Patterns.Digram) :
  In d' (map fst (Patterns.increment t d)) <-> d' = d \/ In d' (map fst t).
Proof.
  induction t as [ | [e n] t IH]; cbn [Patterns.increment map fst In].
  - intuition congruence.
  - destruct (Patterns.eqb e d) eqn:Hed; cbn [map fst In].
    + apply digram_eqb_eq in Hed. subst e. intuition congruence.
    + rewrite IH. tauto.
Qed.

Lemma digram_NoDup_increment (t : list (Patterns.Digram * nat)) (d : Patterns.Digram) :
  NoDup (map fst t) -> NoDup (map fst (Patterns.increment t d)).
Proof.
  induction t as [ | [e n] t IH]; cbn [Patterns.increment map fst]; intros Hnd.
  - constructor; [intros [] | constructor].
  - inversion Hnd as [ | ? ? Hnotin Hnd']; subst.
    destruct (Patterns.eqb e d) eqn:Hed; cbn [map fst].
    + constructor; assumption.
    + constructor; [ | now apply IH].
      intros Hin. apply digram_keys_increment in Hin. destruct Hin as [-> | Hin].
      * now rewrite digram_eqb_refl in Hed.
      * contradiction.
Qed.

Lemma digram_count_from (ds : list Patterns.Digram) (t : list (Patterns.Digram * nat)) :
  NoDup (map fst t) ->
  NoDup (map fst (fold_left Patterns.increment ds t)) /\
  (forall d, Patterns.lookup (fold_left Patterns.increment ds t) d
             = (Patterns.lookup t d + count_occ digram_dec ds d)%nat).
Proof.
  revert t. induction ds as [ | e ds IH]; intros t Hnd; cbn [fold_left].
  - split; [assumption | intros d; simpl; lia].
  - destruct (IH (Patterns.increment t e) (digram_NoDup_increment t e Hnd))
      as [Hnd' Hlook].
    split; [exact Hnd' | ].
    intros d. rewrite Hlook, digram_lookup_increment. cbn [count_occ].
    destruct (digram_dec e d) as [-> | Hne].
    + rewrite digram_eqb_refl. lia.
    + apply digram_eqb_neq in Hne. rewrite Hne. lia.
Qed.

Lemma digram_lookup_entry (t : list (Patterns.Digram * nat)) (d : Patterns.Digram) (n : nat) :
  NoDup (map fst t) -> In (d, n) t -> Patterns.lookup t d = n.
Proof.
  induction t as [ | [e m] t IH]; cbn [map fst In Patterns.lookup]; intros Hnd Hin;
    [contradiction | ].
  inversion Hnd as [ | ? ? Hnotin Hnd']; subst.
  destruct Hin as [Heq | Hin].
  - injection Heq as -> ->. now rewrite digram_eqb_refl.
  - destruct (Patterns.eqb e d) eqn:Hed; [ | now apply IH].
    apply digram_eqb_eq in Hed. subst e. exfalso. apply Hnotin.
    apply in_map_iff. now exists (d, n).
Qed.

Lemma digram_entry_lookup (t : list (Patterns.Digram * nat)) (d : Patterns.Digram) :
  (0 < Patterns.lookup t d)%nat -> In (Patterns.lookup t d) (map snd t).
Proof.
  induction t as [ | [e m] t IH]; cbn [Patterns.lookup map snd In]; intros Hpos; [lia | ].
  destruct (Patterns.eqb e d); [now left | right; now apply IH].
Qed.

(** Some count of the table exceeds 1 exactly when some digram occurs more
    than once among the slices. *)
Lemma repeated_digrams (chars : list ascii) :
  (0 <? List.length
          (filter (fun count => (1 <? count)%nat)
                  (map snd (Patterns.count chars))))%nat = true <->
  exists d, (1 < count_occ digram_dec (Patterns.slices chars) d)%nat.
Proof.
  unfold Patterns.count.
  destruct (digram_count_from (Patterns.slices chars) [] (NoDup_nil _)) as [Hnd Hlook].
  set (t := fold_left Patterns.increment (Patterns.slices chars) []) in *.
  rewrite Nat.ltb_lt. split.
  - intros Hpos.
    destruct (filter (fun count => (1 <? count)%nat) (map snd t)) as [ | n rest] eqn:Hf;
      [simpl in Hpos; lia | ].
    assert (Hin : In n (filter (fun count => (1 <? count)%nat) (map snd t)))
      by (rewrite Hf; now left).
    apply filter_In in Hin. destruct Hin as [Hin Hn]. apply Nat.ltb_lt in Hn.
    apply in_map_iff in Hin. destruct Hin as [[d m] [Hm Hentry]]. cbn [snd] in Hm. subst m.
    exists d. rewrite <- (digram_lookup_entry t d n Hnd Hentry) in Hn.
    rewrite Hlook in Hn. simpl in Hn. exact Hn.
  - intros [d Hd].
    assert (Hl : (1 < Patterns.lookup t d)%nat) by (rewrite Hlook; simpl; exact Hd).
    assert (Hin : In (Patterns.lookup t d)
                     (filter (fun count => (1 <? count)%nat) (map snd t))).
    { apply filter_In. split; [apply digram_entry_lookup; lia | now apply Nat.ltb_lt]. }
    destruct (filter (fun count => (1 <? count)%nat) (map snd t));
      [contradiction | simpl; lia].
Qed.

Lemma count_occ_two_positions (A : Type) (dec : forall x y : A, {x = y} + {x <> y})
      (l : list A) (x : A) :
  (1 < count_occ dec l x)%nat <->
  exists i j, (i < j)%nat /\ nth_error l i = Some x /\ nth_error l j = Some x.
Proof.
  induction l as [ | a l IH]; cbn [count_occ].
  - split; [lia | ]. intros [i [j [_ [Hi _]]]]. destruct i; discriminate Hi.
  - destruct (dec a x) as [-> | Hne].
    + split.
      * intros Hcount. assert (Hin : In x l) by (apply (count_occ_In dec); lia).
        apply In_nth_error in Hin. destruct Hin as [j Hj].
        exists 0%nat, (S j). split; [lia | ]. split; [reflexivity | exact Hj].
      * intros [i [j [Hij [Hi Hj]]]]. destruct j as [ | j]; [lia | ].
        cbn [nth_error] in Hj. apply nth_error_In in Hj.
        apply (count_occ_In dec) in Hj. lia.
    + rewrite IH. split.
      * intros [i [j [Hij [Hi Hj]]]]. exists (S i), (S j).
        split; [lia | ]. split; assumption.
      * intros [i [j [Hij [Hi Hj]]]]. destruct j as [ | j]; [lia | ].
        destruct i as [ | i]; [cbn [nth_error] in Hi; congruence | ].
        exists i, j. split; [lia | ]. split; assumption.
Qed.

Lemma slices_nth_error (chars : list ascii) (i : nat) (a b : ascii) :
  nth_error (Patterns.slices chars) i = Some (a, b) <->
  nth_error chars i = Some a /\ nth_error chars (S i) = Some b.
Proof.
  revert i. induction chars as [ | a0 rest IH]; intros i.
  - cbn [Patterns.slices]. destruct i; cbn [nth_error]; split;
      (discriminate || intros [H _]; discriminate H).
  - cbn [Patterns.slices]. destruct rest as [ | b0 rest'].
    + destruct i as [ | [ | i]]; cbn [nth_error]; split;
        try discriminate; intros [_ H]; discriminate H.
    + destruct i as [ | i].
      * cbn [nth_error]. split.
        -- intros H. injection H as -> ->. now split.
        -- intros [Ha Hb]. injection Ha as ->. injection Hb as ->. reflexivity.
      * change (nth_error ((a0, b0) :: Patterns.slices (b0 :: rest')) (S i))
          with (nth_error (Patterns.slices (b0 :: rest')) i).
        rewrite IH. reflexivity.
Qed.

Lemma hasSequence_positions (chars : list ascii) :
  Patterns.hasSequence chars = true <->
  exists i a b c,
    nth_error chars i = Some a /\ nth_error chars (S i) = Some b /\
    nth_error chars (S (S i)) = Some c /\
    (JS.charCodeAt b = JS.charCodeAt a + 1)%Z /\
    (JS.charCodeAt c = JS.charCodeAt b + 1)%Z.
Proof.
  induction chars as [ | a0 rest IH]; cbn [Patterns.hasSequence].
  - split; [discriminate | ]. intros [i [a [b [c [Ha _]]]]]. destruct i; discriminate Ha.
  - destruct rest as [ | b0 [ | c0 rest']].
    + split; [discriminate | ]. intros [i [a [b [c [_ [Hb _]]]]]].
      destruct i; discriminate Hb.
    + split; [discriminate | ]. intros [i [a [b [c [_ [_ [Hc _]]]]]]].
      destruct i as [ | [ | i]]; discriminate Hc.
    + rewrite orb_true_iff, andb_true_iff, !Z.eqb_eq, IH. split.
      * intros [[Hb Hc] | [i [a [b [c [Ha [Hb [Hc Hcodes]]]]]]]].
        -- exists 0%nat, a0, b0, c0. cbn [nth_error]. tauto.
        -- exists (S i), a, b, c. cbn [nth_error]. tauto.
      * intros [i [a [b [c [Ha [Hb [Hc Hcodes]]]]]]]. destruct i as [ | i].
        -- left. cbn [nth_error] in Ha, Hb, Hc. 
           injection Ha as <-. injection Hb as <-. injection Hc as <-. exact Hcodes.
        -- right. exists i, a, b, c. cbn [nth_error] in Ha, Hb, Hc. tauto.
Qed.

(** X26: [detectPatterns] reports the digram warning exactly when some pair
    of adjacent characters occurs at two different positions of the text
    (overlapping pairs included), and the sequence warning exactly when
    three adjacent characters have consecutive codes; it reports each at
    most once, the digram warning first. *)
Theorem detectPatterns_exact (ciphertext : string) :
  (In Patterns.digramWarning (Patterns.detectPatterns ciphertext) <->
   exists i j a b,
     (i < j)%nat /\
     Spec.charAt ciphertext i = Some a /\ Spec.charAt ciphertext (S i) = Some b /\
     Spec.charAt ciphertext j = Some a /\ Spec.charAt ciphertext (S j) = Some b) /\
  (In Patterns.sequenceWarning (Patterns.detectPatterns ciphertext) <->
   exists i a b c,
     Spec.charAt ciphertext i = Some a /\ Spec.charAt ciphertext (S i) = Some b /\
     Spec.charAt ciphertext (S (S i)) = Some c /\
     (JS.charCodeAt b = JS.charCodeAt a + 1)%Z /\
     (JS.charCodeAt c = JS.charCodeAt b + 1)%Z) /\
  exists digram sequence : bool,
    Patterns.detectPatterns ciphertext
    = (if digram then [Patterns.digramWarning] else [])
        ++ (if sequence then [Patterns.sequenceWarning] else []).
Proof.
  unfold Patterns.detectPatterns, Spec.charAt. cbv zeta.
  pose proof (repeated_digrams (JS.split ciphertext)) as Hrep.
  pose proof (hasSequence_positions (JS.split ciphertext)) as Hseq.
  assert (Hpairs :
            (exists d, (1 < count_occ digram_dec (Patterns.slices (JS.split ciphertext)) d)%nat)
            <-> exists i j a b,
                (i < j)%nat /\
                nth_error (JS.split ciphertext) i = Some a /\
                nth_error (JS.split ciphertext) (S i) = Some b /\
                nth_error (JS.split ciphertext) j = Some a /\
                nth_error (JS.split ciphertext) (S j) = Some b).
  { split.
    - intros [[a b] Hd]. apply count_occ_two_positions in Hd.
      destruct Hd as [i [j [Hij [Hi Hj]]]].
      apply slices_nth_error in Hi, Hj. exists i, j, a, b. tauto.
    - intros [i [j [a [b [Hij [Ha [Hb [Ha' Hb']]]]]]]]. exists (a, b).
      apply count_occ_two_positions. exists i, j.
      split; [exact Hij | ]. split; apply slices_nth_error; tauto. }
  assert (Hdiff : Patterns.sequenceWarning <> Patterns.digramWarning) by discriminate.
  destruct (0 <? List.length
                   (filter (fun count => (1 <? count)%nat)
                           (map snd (Patterns.count (JS.split ciphertext)))))%nat eqn:Hr;
    destruct (Patterns.hasSequence (JS.split ciphertext)) eqn:Hh;
    cbn [app In].
  - split; [ | split].
    + split; [intros _; apply Hpairs, Hrep; reflexivity | intros _; now left].
    + split; [intros _; now apply Hseq | intros _; right; now left].
    + now exists true, true.
  - split; [ | split].
    + split; [intros _; apply Hpairs, Hrep; reflexivity | intros _; now left].
    + split; [intros [H | []]; congruence | ].
      intros H. apply Hseq in H. discriminate H.
    + now exists true, false.
  - split; [ | split].
    + split; [intros [H | []]; congruence | ].
      intros H. apply Hpairs, Hrep in H. discriminate H.
    + split; [intros _; now apply Hseq | intros _; now left].
    + now exists false, true.
  - split; [ | split].
    + split; [intros [] | ]. intros H. apply Hpairs, Hrep in H. discriminate H.
    + split; [intros [] | ]. intros H. apply Hseq in H. discriminate H.
    + now exists false, false.
Qed.

Example detectPatterns_samples :
  Patterns.detectPatterns "ABCXYZ" = [Patterns.sequenceWarning] /\
  Patterns.detectPatterns "ABAB" = [Patterns.digramWarning] /\
  Patterns.detectPatterns "AAA" = [Patterns.digramWarning].
Proof. repeat split; reflexivity. Qed.

(** ** End to end: what small pipelines can score *)

Lemma final_at_most (e d k pen bound : R) :
  (0 <= bound)%R -> (60 + e + d + k + pen <= bound)%R ->
  (Spec.clamp (60 + e + d + k + pen) 0 100 <= bound)%R.
Proof.
  intros H0 Hle. unfold Spec.clamp. apply Rmax_lub; [exact H0 | ].
  eapply Rle_trans; [apply Rmin_r | exact Hle].
Qed.




